(** * Spotify floating synced lyrics: the lyric document, the lyrics source
      and the playback tracker of [src/main.py], embedded and verified.

    The embedding follows the Python source construct by construct:
    - [str] values are sequences of Unicode code points ([pystr]);
    - [float] values are IEEE-754 binary64 numbers ([spec_float] of the
      Standard Library at precision 53, maximal exponent 1024);
    - [int] values are unbounded integers ([Z]);
    - an exception that escapes a function is the left injection of
      [result];
    - the cache directory is a finite map from paths to file contents;
    - one turn of [while True] in [LyricsWorker.main_loop] is the function
      [poll], which consumes what the operating system and the network
      show during that turn and returns the notifications sent through
      [lyric_changed]. *)

From Stdlib Require Import ZArith NArith Lia Bool Ascii String SpecFloat.
From stdpp Require Import base option list gmap sorting.
From Equations Require Import Equations.

(** ** Exceptions *)

Inductive pyexn := ValueError | OverflowError | IndexError.

Definition result (A : Type) : Type := (pyexn + A)%type.

Abbreviation ok a := (inr a) (only parsing).
Abbreviation raise e := (inl e) (only parsing).

Definition rbind {A B} (r : result A) (k : A -> result B) : result B :=
  match r with
  | inl e => inl e
  | inr a => k a
  end.

Notation "'try!' x := r 'in' k" := (rbind r (fun x => k))
  (at level 10, x pattern, r at level 100, k at level 200).

(** ** Text: Python [str] *)

Module Text.

(** A [str] is a sequence of code points. *)
Abbreviation pystr := (list N).

(** [py "abc"] is the [str] literal of an ASCII string. *)
Definition py (s : string) : pystr := map N_of_ascii (list_ascii_of_string s).

Definition chr (a : ascii) : N := N_of_ascii a.

Definition LF : N := 10%N.
Definition CR : N := 13%N.

(** [a == b] *)
Definition str_eqb (a b : pystr) : bool := bool_decide (a = b).

(** [a < b]: lexicographic on code points. *)
Fixpoint str_ltb (a b : pystr) : bool :=
  match a, b with
  | _, [] => false
  | [], _ :: _ => true
  | x :: a', y :: b' =>
      if (x <? y)%N then true
      else if (y <? x)%N then false
      else str_ltb a' b'
  end.

(** [bool(s)]: a string is truthy when it is not empty. *)
Definition truthy (s : pystr) : bool :=
  match s with [] => false | _ :: _ => true end.

(** Line boundaries of [str.splitlines]. *)
Definition is_linebreak (c : N) : bool :=
  ((c =? 0x0A) || (c =? 0x0D) || (c =? 0x0B) || (c =? 0x0C)
   || (c =? 0x1C) || (c =? 0x1D) || (c =? 0x1E) || (c =? 0x85)
   || (c =? 0x2028) || (c =? 0x2029))%N.

(** [splitlines_from cur s]: [cur] holds, reversed, the characters of
    the line being read. A line is closed by a boundary, ["\r\n"] counts
    as one boundary, and the end of the text closes a line only when
    that line has a character. *)
Fixpoint splitlines_from (cur : pystr) (s : pystr) : list pystr :=
  match s with
  | [] => match cur with [] => [] | _ :: _ => [rev cur] end
  | c :: rest =>
      if is_linebreak c then
        rev cur ::
          match rest with
          | c' :: rest' =>
              if ((c =? CR) && (c' =? LF))%N
              then splitlines_from [] rest'
              else splitlines_from [] rest
          | [] => splitlines_from [] rest
          end
      else splitlines_from (c :: cur) rest
  end.

(** [s.splitlines()] *)
Definition splitlines (s : pystr) : list pystr := splitlines_from [] s.

(** [c.isspace()], the characters removed by [str.strip()]. *)
Definition is_space (c : N) : bool :=
  ((0x09 <=? c) && (c <=? 0x0D) || (0x1C <=? c) && (c <=? 0x20)
   || (c =? 0x85) || (c =? 0xA0) || (c =? 0x1680)
   || (0x2000 <=? c) && (c <=? 0x200A)
   || (c =? 0x2028) || (c =? 0x2029) || (c =? 0x202F) || (c =? 0x205F)
   || (c =? 0x3000))%N.

Fixpoint lstrip (s : pystr) : pystr :=
  match s with
  | c :: rest => if is_space c then lstrip rest else s
  | [] => []
  end.

Definition rstrip (s : pystr) : pystr := rev (lstrip (rev s)).

(** [s.strip()] *)
Definition strip (s : pystr) : pystr := rstrip (lstrip s).

(** [s.replace(" ", "_")], a replacement of one character by one. *)
Definition replace_char (old new : N) (s : pystr) : pystr :=
  map (fun c => if (c =? old)%N then new else c) s.

Fixpoint starts_with (p s : pystr) : bool :=
  match p, s with
  | [], _ => true
  | _ :: _, [] => false
  | x :: p', y :: s' => (x =? y)%N && starts_with p' s'
  end.

(** [p in s]: [p] occurs in [s] as a substring. *)
Fixpoint contains (p s : pystr) : bool :=
  starts_with p s ||
  match s with
  | [] => false
  | _ :: s' => contains p s'
  end.

End Text.
Export Text.

(** ** Numbers: Python [float] and the conversions the program uses *)

Module Float.

Abbreviation float := spec_float.

Definition prec : Z := 53.
Definition emax : Z := 1024.

Definition fadd : float -> float -> float := SFadd prec emax.
Definition fltb : float -> float -> bool := SFltb.
Definition feqb : float -> float -> bool := SFeqb.
Definition fleb : float -> float -> bool := SFleb.

Definition is_nan (x : float) : bool :=
  match x with S754_nan => true | _ => false end.

Definition is_inf (x : float) : bool :=
  match x with S754_infinity _ => true | _ => false end.

(** The binary64 number nearest to [n / d] (ties to even), for an
    integer [n] and a positive integer [d]; infinite when the quotient
    is beyond the largest finite number. *)
Definition nearest_ratio (n : Z) (d : positive) : float :=
  match n with
  | Z0 => S754_zero false
  | Zpos p => SFdiv prec emax (S754_finite false p 0) (S754_finite false d 0)
  | Zneg p => SFdiv prec emax (S754_finite true p 0) (S754_finite false d 0)
  end.

(** The conversion of an [int] operand of a mixed [int + float]
    operation: the nearest float, [OverflowError] when there is none. *)
Definition float_of_int (n : Z) : result float :=
  let f := nearest_ratio n 1 in
  if is_inf f then raise OverflowError else ok f.

(** [n / d] on two [int]s, [d] positive: correctly rounded,
    [OverflowError] when the quotient is too large for a float. *)
Definition int_true_div (n : Z) (d : positive) : result float :=
  let f := nearest_ratio n d in
  if is_inf f then raise OverflowError else ok f.

(** A float that is zero, positive or plus infinity, and not [-0.0]. *)
Definition nonneg (x : float) : bool :=
  match x with
  | S754_zero false | S754_infinity false | S754_finite false _ _ => true
  | _ => false
  end.

End Float.
Export Float.

(** ** What the program takes from its interpreter and platform

    The Unicode tables of the interpreter ([\d], [int], [float] and
    [str.lower] read them), the platform's [os.path.join] and the
    interpreter's limit on [int(str)] are not part of the repository; the
    development is parametric in them.

    - [unicode_decimal c] is the decimal digit value of [c] when [c] is a
      decimal digit (category Nd), which is what [\d] matches and what
      [int] and [float] read;
    - [int_max_str_digits] is [sys.get_int_max_str_digits()], [0] when the
      limit is off or the interpreter has none. *)

(** The decimal digits of ASCII. *)
Definition ascii_decimal (c : N) : option N :=
  if ((48 <=? c) && (c <=? 57))%N then Some (c - 48)%N else None.

Class Runtime := {
  unicode_decimal : N -> option N;
  str_lower : pystr -> pystr;
  os_path_join : pystr -> pystr -> pystr;
  int_max_str_digits : N;
  (** among the ASCII characters the decimal digits are [0] to [9] *)
  unicode_decimal_ascii :
    forall c, (c < 128)%N -> unicode_decimal c = ascii_decimal c
}.

(** ** Lyric document: [parse_lrc] and the active-line lookup *)

(** An element of [lyrics_data]: the tuple [(timestamp, text)]. *)
Abbreviation entry := (float * pystr)%type.

(** [a < b] on two such tuples: the first components decide unless they
    are [==], in which case the texts decide. *)
Definition entry_ltb (a b : entry) : bool :=
  if feqb a.1 b.1 then str_ltb a.2 b.2 else fltb a.1 b.1.

(** [sorted(l)]: the stable sort of [l] by [<]. The element [x] goes
    before the first element that is not smaller than it, so elements
    that [<] does not separate keep the order of [l]. *)
Section Sorted.
Context {A : Type} (ltb : A -> A -> bool).

Fixpoint insert_sorted (x : A) (l : list A) : list A :=
  match l with
  | [] => [x]
  | y :: l' => if ltb y x then y :: insert_sorted x l' else x :: l
  end.

Fixpoint sorted_by (l : list A) : list A :=
  match l with
  | [] => []
  | x :: l' => insert_sorted x (sorted_by l')
  end.
End Sorted.

Definition sorted (l : list entry) : list entry := sorted_by entry_ltb l.

Section LyricDocument.
Context `{!Runtime}.

Definition is_decimal (c : N) : bool :=
  match unicode_decimal c with Some _ => true | None => false end.

(** The longest prefix of decimal digits, and what follows it. *)
Fixpoint span_digits (s : pystr) : pystr * pystr :=
  match s with
  | c :: rest =>
      if is_decimal c
      then let '(d, r) := span_digits rest in (c :: d, r)
      else ([], s)
  | [] => ([], [])
  end.

(** [\d+] *)
Definition digits1 (s : pystr) : option (pystr * pystr) :=
  match span_digits s with
  | ([], _) => None
  | (d, r) => Some (d, r)
  end.

(** A literal character of the pattern. *)
Definition expect (c : ascii) (s : pystr) : option pystr :=
  match s with
  | x :: r => if (x =? chr c)%N then Some r else None
  | [] => None
  end.

(** The last group, any characters but a line feed, as many as there
    are: the longest prefix without a line feed. *)
Fixpoint dot_star (s : pystr) : pystr :=
  match s with
  | c :: r => if (c =? LF)%N then [] else c :: dot_star r
  | [] => []
  end.

(** [pattern.match(line)]: the pattern is an opening bracket, group 1
    (one or more digits), a colon, group 2 (digits, a dot, digits), a
    closing bracket and group 3 (the rest of the line). The result is
    the three groups of a match at the start of [line], [None] without
    one. *)
Definition match_line (line : pystr) : option (pystr * pystr * pystr) :=
  r0 ← expect "[" line;
  '(g1, r1) ← digits1 r0;
  r2 ← expect ":" r1;
  '(d2, r3) ← digits1 r2;
  r4 ← expect "." r3;
  '(d3, r5) ← digits1 r4;
  r6 ← expect "]" r5;
  Some (g1, d2 ++ chr "." :: d3, dot_star r6).

(** The number written by a string of decimal digits, after [acc]. *)
Fixpoint digits_value (acc : Z) (s : pystr) : option Z :=
  match s with
  | [] => Some acc
  | c :: r =>
      match unicode_decimal c with
      | Some d => digits_value (10 * acc + Z.of_N d) r
      | None => None
      end
  end.

(** [int(s)] for a string of digits: [ValueError] when [s] has more
    digits than the interpreter's limit allows (the limit is looked at
    above 640 digits only). *)
Definition py_int (s : pystr) : result Z :=
  let n := N.of_nat (length s) in
  if ((640 <? n) && (0 <? int_max_str_digits) && (int_max_str_digits <? n))%N
  then raise ValueError
  else
    match s, digits_value 0 s with
    | _ :: _, Some v => ok v
    | _, _ => raise ValueError
    end.

(** [float(s)] for [s] of the form digits, dot, digits (the form of
    group 2): the nearest float to the decimal number, infinite when the
    number is too large. Other forms are not used by the program and are
    answered by [ValueError] here. *)
Definition py_float (s : pystr) : result float :=
  let '(ip, r) := span_digits s in
  match ip, r with
  | _ :: _, c :: fp =>
      if (c =? chr ".")%N then
        match fp, digits_value 0 (ip ++ fp) with
        | _ :: _, Some v => ok (nearest_ratio v (10 ^ Pos.of_nat (length fp)))
        | _, _ => raise ValueError
        end
      else raise ValueError
  | _, _ => raise ValueError
  end.

(** The body of [if match:], for the three groups of a match. *)
Definition entry_of_match (g : pystr * pystr * pystr) : result entry :=
  let '(g1, g2, g3) := g in
  try! m := py_int g1 in
  try! s := py_float g2 in
  let text := strip g3 in
  try! m60 := float_of_int (m * 60) in
  ok (fadd m60 s, text).

(** The [for] loop of [parse_lrc], [lyrics_data] being the entries
    appended so far. *)
Fixpoint parse_lines (lines : list pystr) (lyrics_data : list entry)
  : result (list entry) :=
  match lines with
  | [] => ok lyrics_data
  | line :: rest =>
      match match_line line with
      | Some g =>
          try! e := entry_of_match g in
          parse_lines rest (lyrics_data ++ [e])
      | None => parse_lines rest lyrics_data
      end
  end.

Definition parse_lrc (lrc_text : pystr) : result (list entry) :=
  try! lyrics_data := parse_lines (splitlines lrc_text) [] in
  ok (sorted lyrics_data).

End LyricDocument.

(** A runtime that knows the ASCII characters only, with the path
    separator of Windows and the default limit of [int]. *)
Definition ascii_lower (s : pystr) : pystr :=
  map (fun c => if ((65 <=? c) && (c <=? 90))%N then (c + 32)%N else c) s.

Definition ascii_runtime : Runtime := {|
  unicode_decimal := ascii_decimal;
  str_lower := ascii_lower;
  os_path_join := fun d f => d ++ 92%N :: f;
  int_max_str_digits := 4300;
  unicode_decimal_ascii := fun _ _ => eq_refl
|}.

(** ** The active line *)

(** [bisect.bisect_right(a, x)]: the loop
    [while lo < hi: mid = (lo + hi) // 2;
     if x < a[mid]: hi = mid else: lo = mid + 1], then [return lo].
    Reading [a[mid]] outside the list is an [IndexError]. *)
Equations? bisect_loop (a : list float) (x : float) (lo hi : nat)
  : result nat by wf (hi - lo) lt :=
  bisect_loop a x lo hi with decide (lo < hi) := {
    | right _ => ok lo
    | left _ with a !! ((lo + hi) `div` 2) := {
        | None => raise IndexError
        | Some v with fltb x v := {
            | true => bisect_loop a x lo ((lo + hi) `div` 2)
            | false => bisect_loop a x ((lo + hi) `div` 2 + 1) hi } } }.
Proof.
  all: change (Nat.divmod (lo + hi) 1 0 1).1 with ((lo + hi) `div` 2);
    pose proof (Nat.div_mod_eq (lo + hi) 2);
    pose proof (Nat.mod_upper_bound (lo + hi) 2); lia.
Qed.

Definition bisect_right (a : list float) (x : float) : result nat :=
  bisect_loop a x 0 (length a).

(** The sentinel shown before the first line. *)
Definition SENTINEL : pystr := py "...".

(** Lines 92 and 93 of [main_loop]:
    [idx = bisect.bisect_right(ts_list, true_pos)] and
    [new_lyric = parsed_lyrics[idx-1][1] if idx > 0 else "..."]. *)
Definition active_line (parsed_lyrics : list entry) (ts_list : list float)
    (true_pos : float) : result pystr :=
  try! idx := bisect_right ts_list true_pos in
  if (0 <? idx)%nat then
    match parsed_lyrics !! (idx - 1)%nat with
    | Some e => ok e.2
    | None => raise IndexError
    end
  else ok SENTINEL.

(** ** Lyrics source: [fetch_lyrics] *)

Definition CACHE_DIR : pystr := py "lyrics_cache".

(** The files of the cache directory: path to content. A content is the
    text the bytes of the file decode to. *)
Abbreviation files := (gmap pystr pystr).

(** [f.write(s)] on a file opened with [open(path, 'w', encoding='utf-8')]
    writes every line feed as the line separator of the platform; the
    program runs where [winrt] exists, where it is carriage return, line
    feed. *)
Fixpoint write_text (s : pystr) : pystr :=
  match s with
  | c :: r => if (c =? LF)%N then CR :: LF :: write_text r else c :: write_text r
  | [] => []
  end.

(** [f.read()] on a file opened with [open(path, 'r', encoding='utf-8')]
    reads with universal newlines: a carriage return, with the line feed
    after it if there is one, is read as one line feed. *)
Fixpoint read_text (s : pystr) : pystr :=
  match s with
  | c :: r =>
      if (c =? CR)%N then
        LF :: match r with
              | c' :: r' => if (c' =? LF)%N then read_text r' else read_text r
              | [] => read_text r
              end
      else c :: read_text r
  | [] => []
  end.

(** UTF-8 encodes every code point but the surrogates. *)
Definition encodable (s : pystr) : bool :=
  forallb (fun c => negb ((0xD800 <=? c) && (c <=? 0xDFFF))%N) s.

(** The query parameters of the request. *)
Record request := {
  artist_name : pystr;
  track_name : pystr;
  album_name : pystr;
  duration : float
}.

(** A value of the JSON body, as far as [if lyrics:] and [f.write(lyrics)]
    tell values apart: [null], a string, or another value with its truth
    value. *)
Inductive json_value :=
| JNull
| JString (s : pystr)
| JOther (truth : bool).

(** The body of a response: [BodyObject v] is a JSON object whose
    ["syncedLyrics"] member is [v] ([None] when the object has no such
    member); [BodyError] is a body on which [resp.json()] or [data.get]
    raises. *)
Inductive body :=
| BodyError
| BodyObject (syncedLyrics : option json_value).

(** What [session.get(url, params=params, timeout=10)] comes to:
    [HttpError] is any exception (no connection, timeout, ...). *)
Inductive http_outcome :=
| HttpError
| HttpResponse (status : Z) (b : body).

(** What the world outside the process answers during one call. *)
Record outside := {
  lrclib : request -> http_outcome;
  (** whether [open(path, 'w')] succeeds *)
  can_create : pystr -> bool
}.

Record fetched := {
  fetched_text : option pystr;
  fetched_files : files;
  (** the number of requests sent *)
  fetched_requests : nat
}.

Section LyricsSource.
Context `{!Runtime}.

(** Lines 15 and 16. *)
Definition cache_path (artist title : pystr) : pystr :=
  let filename :=
    str_lower (replace_char (chr " ") (chr "_") (artist ++ py "_" ++ title))
    ++ py ".lrc" in
  os_path_join CACHE_DIR filename.

(** Lines 31 to 33, inside [try]: the file is created (emptied) by
    [open]; [f.write] then raises, and leaves it empty, when [lyrics]
    is not a string or cannot be encoded. [None] is the result of the
    [except] clause. *)
Definition store (fs : files) (w : outside) (filepath : pystr)
    (lyrics : json_value) : option pystr * files :=
  if can_create w filepath then
    match lyrics with
    | JString s =>
        if encodable s then (Some s, <[filepath := write_text s]> fs)
        else (None, <[filepath := []]> fs)
    | _ => (None, <[filepath := []]> fs)
    end
  else (None, fs).

Definition json_truthy (v : json_value) : bool :=
  match v with
  | JNull => false
  | JString s => truthy s
  | JOther t => t
  end.

Definition fetch_lyrics (fs : files) (w : outside)
    (artist title album : pystr) (duration : float) : fetched :=
  let filepath := cache_path artist title in
  match fs !! filepath with
  | Some content =>
      {| fetched_text := Some (read_text content);
         fetched_files := fs; fetched_requests := 0 |}
  | None =>
      let params := {| artist_name := artist; track_name := title;
                       album_name := album; duration := duration |} in
      let '(text, fs') :=
        match lrclib w params with
        | HttpResponse status (BodyObject (Some lyrics)) =>
            if ((status =? 200)%Z && json_truthy lyrics)
            then store fs w filepath lyrics
            else (None, fs)
        | _ => (None, fs)
        end in
      {| fetched_text := text; fetched_files := fs'; fetched_requests := 1 |}
  end.

End LyricsSource.

(** ** Playback tracker: [LyricsWorker.main_loop] *)

(** The local variables of [main_loop]. *)
Record tracker := {
  last_id : pystr;
  parsed_lyrics : list entry;
  ts_list : list float;
  curr_text : pystr;
  is_fetching : bool
}.

(** Lines 60 and 61. *)
Definition initial : tracker := {|
  last_id := [];
  parsed_lyrics := [];
  ts_list := [];
  curr_text := [];
  is_fetching := false
|}.

(** What the current media session shows during one turn of the loop.
    Durations ([end_time], [position]) are [timedelta]s and instants
    ([last_updated_time]) are [datetime]s, both counted in
    microseconds. *)
Record session := {
  source_app_user_model_id : pystr;
  title : pystr;
  artist : pystr;
  album_title : pystr;
  end_time : Z;
  position : Z;
  last_updated_time : Z;
  playback_status : Z
}.

(** One turn of the loop sees the current session, if there is one, the
    clock ([datetime.now(timezone.utc)], in microseconds) and the world
    outside. *)
Record tick := {
  current_session : option session;
  now : Z;
  world : outside
}.

(** What one turn, or a run of turns, did: the payloads sent through
    [lyric_changed], in order; the cache afterwards; the requests sent;
    and the local variables afterwards, or the exception that ended
    [main_loop]. *)
Record turn := {
  emitted : list pystr;
  cache : files;
  requests : nat;
  after : result tracker
}.

Definition NOT_SPOTIFY : pystr := py "Not Spotify".
Definition SEARCHING : pystr := py "Searching...".
Definition WAITING : pystr := py "Waiting for Spotify...".

(** The value [4] of the playback status: playing. *)
Definition PLAYING : Z := 4.

(** [timedelta.total_seconds()]: the microseconds divided by [10**6]. *)
Definition total_seconds (microseconds : Z) : result float :=
  int_true_div microseconds 1000000.

(** [if curr_text != text: self.lyric_changed.emit(text); curr_text = text] *)
Definition show (text : pystr) (st : tracker) : list pystr * tracker :=
  if str_eqb (curr_text st) text then ([], st)
  else ([text],
        {| last_id := last_id st; parsed_lyrics := parsed_lyrics st;
           ts_list := ts_list st; curr_text := text;
           is_fetching := is_fetching st |}).

(** Lines 98 to 101: no session. *)
Definition no_session (st : tracker) : list pystr * tracker :=
  let '(out, st1) := show WAITING st in
  (out,
   {| last_id := []; parsed_lyrics := []; ts_list := [];
      curr_text := curr_text st1; is_fetching := is_fetching st1 |}).

(** Lines 69 to 72: a session of another application. *)
Definition wrong_source (st : tracker) : list pystr * tracker :=
  let '(out, st1) := show NOT_SPOTIFY st in
  (out,
   {| last_id := []; parsed_lyrics := []; ts_list := ts_list st1;
      curr_text := curr_text st1; is_fetching := is_fetching st1 |}).

(** Lines 88 to 96: the position check. [x.1] is what it emitted. *)
Definition position_check (st : tracker) (s : session) (now : Z)
  : list pystr * result tracker :=
  if (playback_status s =? PLAYING)%Z then
    match
      (try! time_diff := total_seconds (now - last_updated_time s) in
       try! pos := total_seconds (position s) in
       let true_pos := fadd pos time_diff in
       active_line (parsed_lyrics st) (ts_list st) true_pos)
    with
    | inl e => ([], inl e)
    | inr new_lyric =>
        let '(out, st1) := show new_lyric st in (out, ok st1)
    end
  else ([], ok st).

Section PlaybackTracker.
Context `{!Runtime}.

(** Line 67 and 68: ["spotify" in app_id]. *)
Definition is_spotify (s : session) : bool :=
  contains (py "spotify") (str_lower (source_app_user_model_id s)).

(** Line 78. *)
Definition song_id_of (s : session) : pystr :=
  title s ++ py "-" ++ artist s.

(** Line 80: whether this turn fetches. *)
Definition track_changed (st : tracker) (s : session) : bool :=
  negb (str_eqb (song_id_of s) (last_id st)) && negb (is_fetching st).

(** Line 84. *)
Definition install (raw : option pystr) : result (list entry) :=
  match raw with
  | Some text => if truthy text then parse_lrc text else ok []
  | None => ok []
  end.

(** Lines 80 to 86: the fetch on a change of track. *)
Definition track_change (st : tracker) (fs : files) (s : session)
    (w : outside) : turn :=
  if track_changed st s then
    match total_seconds (end_time s) with
    | inl e =>
        {| emitted := [SEARCHING]; cache := fs; requests := 0;
           after := inl e |}
    | inr seconds =>
        let f := fetch_lyrics fs w (artist s) (title s) (album_title s)
                   seconds in
        {| emitted := [SEARCHING];
           cache := fetched_files f;
           requests := fetched_requests f;
           after :=
             try! parsed := install (fetched_text f) in
             ok {| last_id := song_id_of s;
                   parsed_lyrics := parsed;
                   ts_list := map fst parsed;
                   curr_text := [];
                   is_fetching := false |} |}
    end
  else
    {| emitted := []; cache := fs; requests := 0; after := ok st |}.

(** One turn of [while True]. *)
Definition poll (st : tracker) (fs : files) (t : tick) : turn :=
  match current_session t with
  | Some s =>
      if is_spotify s then
        let r := track_change st fs s (world t) in
        match after r with
        | inl e => r
        | inr st1 =>
            let '(out, st2) := position_check st1 s (now t) in
            {| emitted := emitted r ++ out; cache := cache r;
               requests := requests r; after := st2 |}
        end
      else
        let '(out, st1) := wrong_source st in
        {| emitted := out; cache := fs; requests := 0; after := ok st1 |}
  | None =>
      let '(out, st1) := no_session st in
      {| emitted := out; cache := fs; requests := 0; after := ok st1 |}
  end.

(** The turns of the loop for the ticks [ts], from the local variables
    [st] and the cache [fs]; an exception ends the loop. *)
Fixpoint run (st : tracker) (fs : files) (ts : list tick) : turn :=
  match ts with
  | [] => {| emitted := []; cache := fs; requests := 0; after := ok st |}
  | t :: ts' =>
      let r := poll st fs t in
      match after r with
      | inl e => r
      | inr st1 =>
          let r' := run st1 (cache r) ts' in
          {| emitted := emitted r ++ emitted r'; cache := cache r';
             requests := requests r + requests r'; after := after r' |}
      end
  end.

End PlaybackTracker.

(** * The window: [FloatingLyrics] *)

(** A [QPoint]; its coordinates are C [int]s of 32 bits. *)
Abbreviation point := (Z * Z)%type.

Definition wrap_int (z : Z) : Z := ((z + 2 ^ 31) mod 2 ^ 32 - 2 ^ 31)%Z.

(** [QPoint.__sub__]: the C++ [operator-], on [int]s. *)
Definition point_sub (p q : point) : point :=
  (wrap_int (p.1 - q.1)%Z, wrap_int (p.2 - q.2)%Z).

(** What the binding decides: the truth value of a [QPoint], which
    [if self.drag_pos:] of line 221 asks for. *)
Class Toolkit := {
  point_truthy : point -> bool
}.

(** [self.anim]: a [QPropertyAnimation] on [windowOpacity].
    [finished_connected] says whether the signal [finished] is connected
    to [swap_text_and_fade_in], the only slot it is ever given. *)
Record animation := {
  running : bool;
  start_value : option float;
  end_value : option float;
  finished_connected : bool
}.

(** What the methods of [FloatingLyrics] read and write. *)
Record window := {
  label_text : pystr;
  close_btn_hidden : bool;
  window_opacity : float;
  window_pos : point;
  anim : animation;
  drag_pos : option point;
  is_auto_anchored : bool;
  next_text : pystr
}.

Definition OPACITY_0 : float := S754_zero false.
Definition OPACITY_1 : float := nearest_ratio 1 1.

(** The calls on Qt objects, as updates of the record. *)
Definition set_anim (f : animation -> animation) (w : window) : window :=
  {| label_text := label_text w; close_btn_hidden := close_btn_hidden w;
     window_opacity := window_opacity w; window_pos := window_pos w;
     anim := f (anim w); drag_pos := drag_pos w;
     is_auto_anchored := is_auto_anchored w; next_text := next_text w |}.

Definition setWindowOpacity (v : float) (w : window) : window :=
  {| label_text := label_text w; close_btn_hidden := close_btn_hidden w;
     window_opacity := v; window_pos := window_pos w;
     anim := anim w; drag_pos := drag_pos w;
     is_auto_anchored := is_auto_anchored w; next_text := next_text w |}.

Definition move (x y : Z) (w : window) : window :=
  {| label_text := label_text w; close_btn_hidden := close_btn_hidden w;
     window_opacity := window_opacity w; window_pos := (x, y);
     anim := anim w; drag_pos := drag_pos w;
     is_auto_anchored := is_auto_anchored w; next_text := next_text w |}.

Definition setText (text : pystr) (w : window) : window :=
  {| label_text := text; close_btn_hidden := close_btn_hidden w;
     window_opacity := window_opacity w; window_pos := window_pos w;
     anim := anim w; drag_pos := drag_pos w;
     is_auto_anchored := is_auto_anchored w; next_text := next_text w |}.

Definition set_close_btn_hidden (b : bool) (w : window) : window :=
  {| label_text := label_text w; close_btn_hidden := b;
     window_opacity := window_opacity w; window_pos := window_pos w;
     anim := anim w; drag_pos := drag_pos w;
     is_auto_anchored := is_auto_anchored w; next_text := next_text w |}.

Definition set_next_text (text : pystr) (w : window) : window :=
  {| label_text := label_text w; close_btn_hidden := close_btn_hidden w;
     window_opacity := window_opacity w; window_pos := window_pos w;
     anim := anim w; drag_pos := drag_pos w;
     is_auto_anchored := is_auto_anchored w; next_text := text |}.

Definition set_drag_pos (p : point) (w : window) : window :=
  {| label_text := label_text w; close_btn_hidden := close_btn_hidden w;
     window_opacity := window_opacity w; window_pos := window_pos w;
     anim := anim w; drag_pos := Some p;
     is_auto_anchored := is_auto_anchored w; next_text := next_text w |}.

Definition set_is_auto_anchored (b : bool) (w : window) : window :=
  {| label_text := label_text w; close_btn_hidden := close_btn_hidden w;
     window_opacity := window_opacity w; window_pos := window_pos w;
     anim := anim w; drag_pos := drag_pos w;
     is_auto_anchored := b; next_text := next_text w |}.

(** [anim.stop()]: an animation stopped before its end emits nothing. *)
Definition anim_stop (a : animation) : animation :=
  {| running := false; start_value := start_value a;
     end_value := end_value a; finished_connected := finished_connected a |}.

Definition setStartValue (v : float) (a : animation) : animation :=
  {| running := running a; start_value := Some v;
     end_value := end_value a; finished_connected := finished_connected a |}.

Definition setEndValue (v : float) (a : animation) : animation :=
  {| running := running a; start_value := start_value a;
     end_value := Some v; finished_connected := finished_connected a |}.

(** [try: anim.finished.disconnect() / except: pass]: no connection is
    left, whether there was one or not. *)
Definition finished_disconnect (a : animation) : animation :=
  {| running := running a; start_value := start_value a;
     end_value := end_value a; finished_connected := false |}.

Definition finished_connect (a : animation) : animation :=
  {| running := running a; start_value := start_value a;
     end_value := end_value a; finished_connected := true |}.

Definition set_running (b : bool) (a : animation) : animation :=
  {| running := b; start_value := start_value a;
     end_value := end_value a; finished_connected := finished_connected a |}.

(** [windowOpacity] gets the value [v] of the animation, if it has one. *)
Definition animate (v : option float) (w : window) : window :=
  match v with
  | Some x => setWindowOpacity x w
  | None => w
  end.

(** [anim.start()]: the animation runs, from its start value. *)
Definition anim_start (w : window) : window :=
  animate (start_value (anim w)) (set_anim (set_running true) w).

(** Lines 182 to 185. [screen_width] and [width] are what
    [primaryScreen().geometry().width()] and [self.width()] return. *)
Definition update_position (screen_width width : Z) (w : window) : window :=
  let margin := 30%Z in
  move (screen_width - width - margin)%Z margin w.

(** Lines 187 to 195, the slot of [lyric_changed]. *)
Definition animate_text_change (text : pystr) (w : window) : window :=
  let w := set_next_text text w in
  let w := set_anim anim_stop w in
  let w := set_anim (setStartValue (window_opacity w)) w in
  let w := set_anim (setEndValue OPACITY_0) w in
  let w := set_anim finished_disconnect w in
  let w := set_anim finished_connect w in
  anim_start w.

(** Lines 197 to 206. [width] is [self.width()] after [adjustSize()]. *)
Definition swap_text_and_fade_in (screen_width width : Z) (w : window)
  : window :=
  let w := set_anim finished_disconnect w in
  let w := setText (next_text w) w in
  let w := if is_auto_anchored w then update_position screen_width width w
           else w in
  let w := set_anim (setStartValue OPACITY_0) w in
  let w := set_anim (setEndValue OPACITY_1) w in
  anim_start w.

(** Lines 209 to 213. *)
Definition enterEvent (w : window) : window := set_close_btn_hidden false w.

Definition leaveEvent (w : window) : window := set_close_btn_hidden true w.

(** Lines 215 to 218. [left_button] says whether [e.button()] is the
    left one, [global_pos] is [e.globalPosition().toPoint()]. *)
Definition mousePressEvent (left_button : bool) (global_pos : point)
    (w : window) : window :=
  if left_button
  then set_is_auto_anchored false (set_drag_pos global_pos w)
  else w.

Section Drag.
Context `{!Toolkit}.

(** Lines 220 to 224. *)
Definition mouseMoveEvent (global_pos : point) (w : window) : window :=
  match drag_pos w with
  | Some d =>
      if point_truthy d then
        let delta := point_sub global_pos d in
        let w := move ((window_pos w).1 + delta.1)%Z
                      ((window_pos w).2 + delta.2)%Z w in
        set_drag_pos global_pos w
      else w
  | None => w
  end.
End Drag.

(** Lines 107 to 180, as far as the methods read it: the label, the
    hidden button, the opacity, the animation, and the three attributes;
    line 180 anchors the window. *)
Definition init (screen_width width : Z) : window :=
  update_position screen_width width
    {| label_text := py "Spotify Sync"; close_btn_hidden := true;
       window_opacity := OPACITY_0; window_pos := (0%Z, 0%Z);
       anim := {| running := false; start_value := None;
                  end_value := None; finished_connected := false |};
       drag_pos := None; is_auto_anchored := true; next_text := [] |}.

(** What the event loop of the GUI thread delivers, one at a time: a
    [lyric_changed] of the worker (a queued connection), a value written
    by the running animation, the end of the running animation, and the
    events of the mouse. *)
Inductive event :=
  | LyricChanged (text : pystr)
  | AnimationValue (v : float)
  | AnimationFinished (screen_width width : Z)
  | Enter
  | Leave
  | MousePress (left_button : bool) (global_pos : point)
  | MouseMove (global_pos : point).

Section Events.
Context `{!Toolkit}.

(** The animation reaches its end: it writes its end value, stops, and
    emits [finished]. *)
Definition animation_finished (screen_width width : Z) (w : window)
  : window :=
  if running (anim w) then
    let w := animate (end_value (anim w)) w in
    let w := set_anim (set_running false) w in
    if finished_connected (anim w)
    then swap_text_and_fade_in screen_width width w
    else w
  else w.

Definition handle (w : window) (e : event) : window :=
  match e with
  | LyricChanged text => animate_text_change text w
  | AnimationValue v =>
      if running (anim w) then setWindowOpacity v w else w
  | AnimationFinished screen_width width =>
      animation_finished screen_width width w
  | Enter => enterEvent w
  | Leave => leaveEvent w
  | MousePress left_button global_pos =>
      mousePressEvent left_button global_pos w
  | MouseMove global_pos => mouseMoveEvent global_pos w
  end.

Definition handles (w : window) (es : list event) : window :=
  foldl handle w es.
End Events.

(** * What the claims are stated with *)

(** ** Lyric documents *)

Definition timestamp_le (a b : entry) : Prop := fleb a.1 b.1 = true.

(** The invariant of the data model: timestamps are numbers and do not
    decrease along the document. *)
Definition lyric_document (doc : list entry) : Prop :=
  Forall (fun e => is_nan e.1 = false) doc /\ Sorted timestamp_le doc.

(** The reference lookup: scan the whole document and keep the text of the
    last entry that is not after the position. *)
Definition linear_scan (doc : list entry) (pos : float) : pystr :=
  foldl (fun acc e => if fleb e.1 pos then e.2 else acc) SENTINEL doc.

(** The index [idx] splits [a] for [x]: [x] is smaller than no element
    before it and smaller than every element from it on. *)
Definition splits (a : list float) (x : float) (idx : nat) : Prop :=
  (forall i v, a !! i = Some v -> (i < idx)%nat -> fltb x v = false) /\
  (forall i v, a !! i = Some v -> (idx <= i)%nat -> fltb x v = true).

Definition ascending (a : list float) : Prop :=
  forall i j vi vj, a !! i = Some vi -> a !! j = Some vj -> (i <= j)%nat ->
    fleb vi vj = true.

(** An entry made by the parser: its timestamp is zero, positive or plus
    infinity. *)
Definition parsed_entry (e : entry) : Prop := nonneg e.1 = true.

(** [entry_le a b]: [b] is not smaller than [a]. *)
Definition entry_le (a b : entry) : Prop := entry_ltb b a = false.

(** The sign of a float, when it has one. *)
Definition has_sign (s : bool) (x : float) : Prop :=
  match x with
  | S754_zero s' | S754_infinity s' | S754_finite s' _ _ => s' = s
  | S754_nan => False
  end.

(** The entries of the matches [gs], in order; the first exception ends
    the conversion. *)
Section Matches.
Context `{!Runtime}.
Fixpoint entries_of (gs : list (pystr * pystr * pystr)) : result (list entry) :=
  match gs with
  | [] => ok []
  | g :: gs' =>
      try! e := entry_of_match g in
      try! es := entries_of gs' in
      ok (e :: es)
  end.

(** The groups of the lines of a text that match, in order. *)
Definition matches_of (lrc_text : pystr) : list (pystr * pystr * pystr) :=
  omap match_line (splitlines lrc_text).

(** A string of one or more decimal digits. *)
Definition digits (s : pystr) : Prop :=
  s <> [] /\ Forall (fun c => is_decimal c = true) s.

(** What the pattern says of a line and its three groups. *)
Definition matches_pattern (line g1 g2 g3 : pystr) : Prop :=
  exists d2 d3 rest,
    line = chr "[" :: g1 ++ chr ":" :: d2 ++ chr "." :: d3
             ++ chr "]" :: g3 ++ rest /\
    digits g1 /\ digits d2 /\ digits d3 /\
    g2 = d2 ++ chr "." :: d3 /\
    Forall (fun c => c <> LF) g3 /\
    (rest = [] \/ exists rest', rest = LF :: rest').
End Matches.

Section Stops.
Context `{!Runtime}.

(** What follows a run of digits is not a digit. *)
Definition stops (r : pystr) : Prop :=
  match r with [] => True | c :: _ => is_decimal c = false end.
End Stops.

(** A request that brings no lyrics: an exception, a status other than
    200, a body that cannot be read, or a body whose ["syncedLyrics"] is
    missing, [null] or empty. *)
Definition fetch_failure (o : http_outcome) : bool :=
  match o with
  | HttpError => true
  | HttpResponse status b =>
      negb (status =? 200)%Z ||
      match b with
      | BodyError => true
      | BodyObject None => true
      | BodyObject (Some v) => negb (json_truthy v)
      end
  end.

(** The notifications [out] after the notification [prev] (if any): a
    notification repeats the one before it only if it is
    ["Searching..."]. *)
Fixpoint chain (prev : option pystr) (out : list pystr) : Prop :=
  match out with
  | [] => True
  | x :: out' => (prev = Some x -> x = SEARCHING) /\ chain (Some x) out'
  end.

(** The last notification of [prev] followed by [out]. *)
Definition last_emitted (prev : option pystr) (out : list pystr) : option pystr :=
  foldl (fun _ x => Some x) prev out.

(** What [curr_text] knows of the last notification: it is that text, or
    the text is ["Searching..."] and [curr_text] was emptied after it. *)
Definition remembers (prev : option pystr) (st : tracker) : Prop :=
  forall x, prev = Some x ->
    x = curr_text st \/ (x = SEARCHING /\ curr_text st = []).

(** The invariant of the loop between two turns. *)
Definition coherent (st : tracker) : Prop :=
  is_fetching st = false /\
  (ts_list st = map fst (parsed_lyrics st) \/ last_id st = []).

(** A guarded emission: the text [x] is emitted, alone, exactly when it
    is not the text [displayed]. *)
Definition emitted_if_new (displayed x : pystr) (out : list pystr) : Prop :=
  (x = displayed /\ out = []) \/ (x <> displayed /\ out = [x]).

Section NewTrack.
Context `{!Runtime}.

(** A change of track, in the claim's words: the turn has a session of
    Spotify whose title and artist give another identity than
    [last_id]. *)
Definition new_track (st : tracker) (t : tick) : bool :=
  match current_session t with
  | Some s => is_spotify s && negb (str_eqb (song_id_of s) (last_id st))
  | None => false
  end.
End NewTrack.

(** ** Concrete inputs *)

(** [seconds n d] is the float of [n / d] seconds. *)
Definition seconds (n : Z) (d : positive) : float := nearest_ratio n d.

(** The document of the specification's example. *)
Definition abc_document : list entry :=
  [(seconds 0 1, py "A"); (seconds 105 10, py "B"); (seconds 20 1, py "C")].

(** Two lines with the same timestamp, the second with the smaller
    text. *)
Definition tie_text : pystr :=
  py "[00:01.00]b" ++ [LF] ++ py "[00:01.00]a".

(** A minute count of 309 digits. *)
Definition huge_minutes_text : pystr :=
  py "[1" ++ replicate 308 (chr "0") ++ py ":00.00]x".

(** A world without lyrics. *)
Definition offline : outside :=
  {| lrclib := fun _ => HttpError; can_create := fun _ => true |}.

(** A Spotify session that is paused (status 5). *)
Definition paused (artist title : pystr) : session :=
  {| source_app_user_model_id := py "Spotify.exe";
     title := title; artist := artist; album_title := [];
     end_time := 180000000; position := 0; last_updated_time := 0;
     playback_status := 5 |}.

Definition see (s : session) : tick :=
  {| current_session := Some s; now := 0; world := offline |}.


Definition lrclib_with (lyrics : pystr) : outside :=
  {| lrclib := fun _ => HttpResponse 200 (BodyObject (Some (JString lyrics)));
     can_create := fun _ => true |}.

Definition lf_lyrics : pystr :=
  py "[00:01.00]a" ++ [LF] ++ py "[00:02.00]b".

(** A Spotify session that plays (status 4), 30 seconds into the track
    when the timeline was last updated, at the instant [t0]. *)
Definition playing (artist title : pystr) (t0 : Z) : session :=
  {| source_app_user_model_id := py "Spotify.exe";
     title := title; artist := artist; album_title := [];
     end_time := 180000000; position := 30000000; last_updated_time := t0;
     playback_status := 4 |}.

(** A session of another application. *)
Definition other_player : session :=
  {| source_app_user_model_id := py "chrome.exe";
     title := []; artist := []; album_title := [];
     end_time := 0; position := 0; last_updated_time := 0;
     playback_status := 4 |}.

(** * What the further properties are stated with *)

(** A text without a space at either end. *)
Definition trimmed (s : pystr) : Prop :=
  (forall c, head s = Some c -> is_space c = false) /\
  (forall c, last s = Some c -> is_space c = false).

(** How often ["Searching..."] is among some notifications. *)
Definition searches (out : list pystr) : nat :=
  length (filter (fun x => x = SEARCHING) out).

Section Away.
Context `{!Runtime}.

(** A tick without a session of Spotify: no session at all when [none],
    a session of another application otherwise. *)
Definition away (none : bool) (t : tick) : Prop :=
  if none then current_session t = None
  else exists s, current_session t = Some s /\ is_spotify s = false.
End Away.

(** The texts of the [lyric_changed] signals among the events. *)
Definition notified (es : list event) : list pystr :=
  omap (fun e => match e with LyricChanged t => Some t | _ => None end) es.

Definition is_move (e : event) : bool :=
  match e with MouseMove _ => true | _ => false end.

(** Coordinates of a point on a screen, far from the bounds of [int]. *)
Definition on_screen (p : point) : Prop :=
  (- 2 ^ 29 <= p.1 < 2 ^ 29)%Z /\ (- 2 ^ 29 <= p.2 < 2 ^ 29)%Z.

Section Grip.
Context `{!Toolkit}.

(** The events during which a grip of the window lasts: no new left
    press, and moves to points of the screen that count as true. *)
Definition keeps_grip (e : event) : Prop :=
  match e with
  | MousePress left_button _ => left_button = false
  | MouseMove p => on_screen p /\ point_truthy p = true
  | _ => True
  end.
End Grip.

(** Whether the cursor is over the window after the events [es]. *)
Definition hovering (es : list event) : bool :=
  foldl (fun h e => match e with Enter => true | Leave => false | _ => h end)
        false es.

(** The text [t] is on its way to the label, or on it for good. *)
Definition settled (t : pystr) (w : window) : Prop :=
  next_text w = t /\
  ((running (anim w) = true /\ finished_connected (anim w) = true) \/
   (label_text w = t /\ finished_connected (anim w) = false)).

(** The invariant of the window: a connected [finished] belongs to a
    running fade-out, whose end value is [0.0]. *)
Definition fading_out (w : window) : Prop :=
  finished_connected (anim w) = true ->
  running (anim w) = true /\ end_value (anim w) = Some OPACITY_0.

(** The point of the last mouse move among the events, [p0] when there
    is none. *)
Definition last_move (p0 : point) (es : list event) : point :=
  foldl (fun p e => match e with MouseMove q => q | _ => p end) p0 es.

Section Gripped.
Context `{!Toolkit}.

(** The grip: the window is off its anchor, [drag_pos] is the point [p],
    and the window is where the way of the cursor from the press at [p0]
    to [p] took it. *)
Definition gripped (w0 : window) (p0 p : point) (w : window) : Prop :=
  is_auto_anchored w = false /\ drag_pos w = Some p /\
  on_screen p /\ point_truthy p = true /\
  window_pos w = ((window_pos w0).1 + (p.1 - p0.1),
                  (window_pos w0).2 + (p.2 - p0.2))%Z.
End Gripped.

(** ** More concrete inputs *)

(** A turn without a session. *)
Definition idle : tick :=
  {| current_session := None; now := 0; world := offline |}.

(** A turn that sees the session [s] at the instant [now], in a world
    whose answer has the lyrics [lyrics]. *)
Definition hear (lyrics : pystr) (s : session) (now : Z) : tick :=
  {| current_session := Some s; now := now; world := lrclib_with lyrics |}.

(** The lines of [lf_lyrics] in the other order, with a line between them
    that does not match. *)
Definition shuffled_lyrics : pystr :=
  py "[00:02.00]b" ++ [LF] ++ py "la la" ++ [LF] ++ py "[00:01.00]a".

(** One timed line without text, and its document. *)
Definition blank_lyrics : pystr := py "[00:00.00]".

Definition blank_document : list entry := [(seconds 0 1, [])].

(** A world whose answer has lyrics with a lone surrogate, which UTF-8
    does not encode. *)
Definition surrogate_world : outside :=
  {| lrclib := fun _ =>
       HttpResponse 200
         (BodyObject (Some (JString (py "[00:01.00]" ++ [0xD800%N]))));
     can_create := fun _ => true |}.

(** The binding in which a [QPoint] is false when it is null. *)
Definition null_is_false : Toolkit :=
  {| point_truthy p := negb ((p.1 =? 0)%Z && (p.2 =? 0)%Z) |}.

(** * Properties *)

(** ** The order of floats *)

Ltac float_order :=
  unfold fltb, fleb, feqb, SFltb, SFleb, SFeqb, SFcompare, is_nan, nonneg in *;
  repeat match goal with
  | x : float |- _ => destruct x as [[]|[]| |[] ? ?]
  end;
  simpl in *; try discriminate; try reflexivity;
  change (Pos.compare_cont Eq) with Pos.compare in *;
  repeat match goal with
  | H : context [Z.compare ?a ?b] |- _ => destruct (Z.compare_spec a b)
  | |- context [Z.compare ?a ?b] => destruct (Z.compare_spec a b)
  | H : context [Pos.compare ?a ?b] |- _ => destruct (Pos.compare_spec a b)
  | |- context [Pos.compare ?a ?b] => destruct (Pos.compare_spec a b)
  end;
  simpl in *; try discriminate; try reflexivity; try congruence; try lia.

Lemma fltb_fleb (x v : float) :
  is_nan x = false -> is_nan v = false -> fltb x v = negb (fleb v x).
Proof. intros. float_order. Qed.

Lemma fleb_trans (x y z : float) :
  fleb x y = true -> fleb y z = true -> fleb x z = true.
Proof. intros. float_order. Qed.

Lemma fleb_not_nan (x y : float) :
  fleb x y = true -> is_nan x = false /\ is_nan y = false.
Proof. intros. split; float_order. Qed.

Lemma fleb_refl (x : float) : is_nan x = false -> fleb x x = true.
Proof. intros. float_order. Qed.

Lemma nonneg_not_nan (x : float) : nonneg x = true -> is_nan x = false.
Proof. intros. float_order. Qed.

Lemma feqb_nonneg_eq (x y : float) :
  nonneg x = true -> nonneg y = true -> feqb x y = true -> x = y.
Proof. intros. float_order. Qed.

#[local] Instance timestamp_le_trans : Transitive timestamp_le.
Proof. intros a b c. unfold timestamp_le. apply fleb_trans. Qed.

Lemma lyric_document_lookup doc i j ei ej :
  lyric_document doc -> doc !! i = Some ei -> doc !! j = Some ej ->
  (i <= j)%nat -> fleb ei.1 ej.1 = true.
Proof.
  intros [Hn Hs] Hi Hj Hij.
  apply Sorted_StronglySorted in Hs; [|apply _].
  destruct (decide (i = j)) as [->|Hne].
  - assert (ei = ej) by congruence; subst.
    apply fleb_refl. rewrite Forall_forall in Hn. apply Hn.
    eapply list_elem_of_lookup_2; eauto.
  - revert i j Hi Hj Hij Hne. clear Hn.
    induction Hs as [|a l Hs IH Hall]; intros i j Hi Hj Hij Hne; [done|].
    destruct i as [|i], j as [|j]; simpl in *; try lia.
    + injection Hi as <-. rewrite Forall_forall in Hall.
      apply Hall. eapply list_elem_of_lookup_2; eauto.
    + apply (IH i j); auto; lia.
Qed.

(** ** [bisect_right] *)

Lemma fltb_below (x v w : float) :
  is_nan x = false -> fltb x v = false -> fleb w v = true -> fltb x w = false.
Proof. intros. float_order. Qed.

Lemma fltb_above (x v w : float) :
  fltb x v = true -> fleb v w = true -> fltb x w = true.
Proof. intros. float_order. Qed.

Lemma half_bounds (lo hi : nat) :
  (lo < hi)%nat -> (lo <= (lo + hi) `div` 2 < hi)%nat.
Proof.
  intros. pose proof (Nat.div_mod_eq (lo + hi) 2).
  pose proof (Nat.mod_upper_bound (lo + hi) 2). lia.
Qed.

Lemma bisect_loop_splits (a : list float) (x : float) (lo hi : nat) :
  ascending a -> is_nan x = false ->
  (lo <= hi)%nat -> (hi <= length a)%nat ->
  (forall i v, a !! i = Some v -> (i < lo)%nat -> fltb x v = false) ->
  (forall i v, a !! i = Some v -> (hi <= i)%nat -> fltb x v = true) ->
  exists idx, bisect_loop a x lo hi = ok idx /\ (lo <= idx <= hi)%nat /\
              splits a x idx.
Proof.
  apply (bisect_loop_elim (fun a x lo hi r =>
    ascending a -> is_nan x = false ->
    (lo <= hi)%nat -> (hi <= length a)%nat ->
    (forall i v, a !! i = Some v -> (i < lo)%nat -> fltb x v = false) ->
    (forall i v, a !! i = Some v -> (hi <= i)%nat -> fltb x v = true) ->
    exists idx, r = ok idx /\ (lo <= idx <= hi)%nat /\ splits a x idx));
    clear a x lo hi.
  - intros a x lo hi Hn _ Hasc Hx Hlh Hlen Hlo Hhi.
    exists lo. assert (lo = hi) by lia. subst. repeat split; auto; lia.
  - intros a x lo hi Hl Hnone _ Hasc Hx Hlh Hlen Hlo Hhi. exfalso.
    apply lookup_ge_None in Hnone. pose proof (half_bounds lo hi Hl). lia.
  - intros a x lo hi v Hl IH Hlt Hv _ Hasc Hx Hlh Hlen Hlo Hhi.
    pose proof (half_bounds lo hi Hl).
    destruct IH as (idx & -> & Hr & Hs); auto; try lia.
    + intros i w Hi Hge. destruct (decide (hi <= i)%nat); [eauto|].
      eapply fltb_above; [exact Hlt|]. eapply Hasc; eauto.
    + exists idx. repeat split; try lia; apply Hs.
  - intros a x lo hi v Hl IH Hlt Hv _ Hasc Hx Hlh Hlen Hlo Hhi.
    pose proof (half_bounds lo hi Hl).
    destruct IH as (idx & -> & Hr & Hs); auto; try lia.
    + intros i w Hi Hlt'. destruct (decide (i < lo)%nat); [eauto|].
      eapply fltb_below; [done|exact Hlt|]. eapply Hasc; eauto. lia.
    + exists idx. repeat split; try lia; apply Hs.
Qed.

Lemma bisect_right_splits (a : list float) (x : float) :
  ascending a -> is_nan x = false ->
  exists idx, bisect_right a x = ok idx /\ (idx <= length a)%nat /\
              splits a x idx.
Proof.
  intros Hasc Hx. unfold bisect_right.
  destruct (bisect_loop_splits a x 0 (length a)) as (idx & ? & ? & ?);
    auto; try lia.
  - intros i v Hi Hge. apply lookup_lt_Some in Hi. lia.
  - exists idx. repeat split; auto; try lia; apply H1.
Qed.

Lemma lyric_document_ascending (doc : list entry) :
  lyric_document doc -> ascending (map fst doc).
Proof.
  intros Hd i j vi vj Hi Hj Hij.
  apply list_lookup_fmap_Some_1 in Hi as (ei & -> & Hi).
  apply list_lookup_fmap_Some_1 in Hj as (ej & -> & Hj).
  eapply lyric_document_lookup; eauto.
Qed.

Lemma linear_scan_app (l1 l2 : list entry) (pos : float) (acc : pystr) :
  foldl (fun acc e => if fleb e.1 pos then e.2 else acc) acc (l1 ++ l2) =
  foldl (fun acc e => if fleb e.1 pos then e.2 else acc)
    (foldl (fun acc e => if fleb e.1 pos then e.2 else acc) acc l1) l2.
Proof. apply foldl_app. Qed.

Lemma linear_scan_none (l : list entry) (pos : float) (acc : pystr) :
  (forall e, e ∈ l -> fleb e.1 pos = false) ->
  foldl (fun acc e => if fleb e.1 pos then e.2 else acc) acc l = acc.
Proof.
  revert acc. induction l as [|e l IH]; intros acc Hl; [done|].
  simpl. rewrite (Hl e) by apply list_elem_of_here.
  apply IH. intros e' He'. apply Hl. by apply list_elem_of_further.
Qed.

Lemma linear_scan_snoc (l : list entry) (e : entry) (pos : float) (acc : pystr) :
  fleb e.1 pos = true ->
  foldl (fun acc e => if fleb e.1 pos then e.2 else acc) acc (l ++ [e]) = e.2.
Proof. intros He. rewrite foldl_app. simpl. by rewrite He. Qed.

(** The lookup and the linear scan agree at the index found by the
    search: every entry before the index is not after the position, every
    entry from the index on is. *)
Lemma active_line_at_split (doc : list entry) (pos : float) (idx : nat) :
  lyric_document doc -> is_nan pos = false ->
  (idx <= length doc)%nat -> splits (map fst doc) pos idx ->
  (forall i e, doc !! i = Some e -> (i < idx)%nat -> fleb e.1 pos = true) /\
  (forall i e, doc !! i = Some e -> (idx <= i)%nat -> fleb e.1 pos = false).
Proof.
  intros [Hn _] Hpos Hlen [Hlo Hhi]. rewrite Forall_forall in Hn.
  split; intros i e Hi Hc.
  - assert (Hf : fltb pos e.1 = false).
    { apply (Hlo i); [|done]. by apply (list_lookup_fmap_Some_2 fst). }
    rewrite fltb_fleb in Hf; [by destruct (fleb e.1 pos)|done|].
    apply Hn. eapply list_elem_of_lookup_2; eauto.
  - assert (Hf : fltb pos e.1 = true).
    { apply (Hhi i); [|done]. by apply (list_lookup_fmap_Some_2 fst). }
    rewrite fltb_fleb in Hf; [by destruct (fleb e.1 pos)|done|].
    apply Hn. eapply list_elem_of_lookup_2; eauto.
Qed.

(** The lookup against the linear scan. *)
Lemma active_line_linear_scan (doc : list entry) (pos : float) :
  lyric_document doc -> is_nan pos = false ->
  active_line doc (map fst doc) pos = ok (linear_scan doc pos) /\
  ((linear_scan doc pos = SENTINEL /\
    forall e, e ∈ doc -> fleb e.1 pos = false) \/
   (exists e, e ∈ doc /\ linear_scan doc pos = e.2 /\ fleb e.1 pos = true /\
      forall e', e' ∈ doc -> fleb e'.1 pos = true -> fleb e'.1 e.1 = true)).
Proof.
  intros Hdoc Hpos.
  destruct (bisect_right_splits (map fst doc) pos) as (idx & Hb & Hlen & Hs);
    [by apply lyric_document_ascending|done|].
  rewrite length_map in Hlen.
  destruct (active_line_at_split doc pos idx Hdoc Hpos Hlen Hs) as [Hlo Hhi].
  unfold active_line. rewrite Hb. simpl.
  destruct idx as [|k].
  - assert (Hall : forall e, e ∈ doc -> fleb e.1 pos = false).
    { intros e He. apply list_elem_of_lookup in He as [i Hi].
      apply (Hhi i); [done|lia]. }
    simpl. unfold linear_scan. rewrite linear_scan_none by done.
    split; [done|]. by left.
  - replace (0 <? S k)%nat with true by (symmetry; apply Nat.ltb_lt; lia).
    replace (S k - 1)%nat with k by lia.
    destruct (lookup_lt_is_Some_2 doc k ltac:(lia)) as [e He].
    rewrite He.
    assert (Hscan : linear_scan doc pos = e.2).
    { unfold linear_scan.
      rewrite <- (take_drop (S k) doc), foldl_app.
      rewrite linear_scan_none.
      - rewrite (take_S_r _ _ _ He). apply linear_scan_snoc.
        apply (Hlo k); [done|lia].
      - intros e' He'. apply list_elem_of_lookup in He' as [i Hi].
        rewrite lookup_drop in Hi. apply (Hhi (S k + i)%nat); [done|lia]. }
    rewrite Hscan. split; [done|]. right. exists e. repeat split.
    + eapply list_elem_of_lookup_2; eauto.
    + apply (Hlo k); [done|lia].
    + intros e' He' Hle. apply list_elem_of_lookup in He' as [i Hi].
      destruct (decide (i <= k)%nat) as [Hik|Hik].
      * eapply lyric_document_lookup; eauto.
      * rewrite (Hhi i e' Hi) in Hle; [done|lia].
Qed.

(** C1. For every lyric document (timestamps are numbers and do not
    decrease) and every position that is a number, the active-line lookup
    returns what a linear scan of the document returns: the text of an
    entry whose timestamp is the greatest of those not after the position
    (the last such entry of the document), and the sentinel ["..."] when no
    entry has its timestamp at or before the position, the empty document
    included. *)
Theorem active_line_greatest (doc : list entry) (pos : float) :
  lyric_document doc -> is_nan pos = false ->
  active_line doc (map fst doc) pos = ok (linear_scan doc pos) /\
  ((linear_scan doc pos = SENTINEL /\
    forall e, e ∈ doc -> fleb e.1 pos = false) \/
   (exists e, e ∈ doc /\ linear_scan doc pos = e.2 /\ fleb e.1 pos = true /\
      forall e', e' ∈ doc -> fleb e'.1 pos = true -> fleb e'.1 e.1 = true)).
Proof. apply active_line_linear_scan. Qed.

(** ** The order of texts and of entries *)

Lemma str_ltb_asym (a b : pystr) : str_ltb a b = true -> str_ltb b a = false.
Proof.
  revert b. induction a as [|x a IH]; intros [|y b]; simpl; try done.
  destruct (N.ltb_spec x y), (N.ltb_spec y x); try done; try lia. apply IH.
Qed.

Lemma str_ltb_total (a b : pystr) :
  str_ltb a b = false -> str_ltb b a = false -> a = b.
Proof.
  revert b. induction a as [|x a IH]; intros [|y b]; simpl; try done.
  destruct (N.ltb_spec x y), (N.ltb_spec y x); try done.
  intros. assert (x = y) by lia. subst. f_equal. by apply IH.
Qed.

Lemma str_ltb_cotrans (a b c : pystr) :
  str_ltb b a = false -> str_ltb c b = false -> str_ltb c a = false.
Proof.
  revert b c. induction a as [|x a IH]; intros [|y b] [|z c]; simpl; try done.
  destruct (N.ltb_spec y x), (N.ltb_spec x y), (N.ltb_spec z y),
      (N.ltb_spec y z), (N.ltb_spec z x), (N.ltb_spec x z);
      try done; try lia.
  apply IH.
Qed.

Ltac entry_order :=
  unfold entry_le, parsed_entry, entry_ltb in *;
  repeat match goal with e : (spec_float * pystr)%type |- _ => destruct e end;
  simpl in *; float_order;
  eauto using str_ltb_asym, str_ltb_total, str_ltb_cotrans.

Lemma entry_ltb_asym (a b : entry) :
  parsed_entry a -> parsed_entry b ->
  entry_ltb a b = true -> entry_le a b.
Proof. intros. entry_order. Qed.

Lemma entry_le_trans (a b c : entry) :
  parsed_entry a -> parsed_entry b -> parsed_entry c ->
  entry_le a b -> entry_le b c -> entry_le a c.
Proof. intros. entry_order. Qed.

Lemma entry_le_antisym (a b : entry) :
  parsed_entry a -> parsed_entry b ->
  entry_le a b -> entry_le b a -> a = b.
Proof.
  intros Ha Hb Hab Hba. destruct a as [a1 a2], b as [b1 b2].
  unfold entry_le, parsed_entry, entry_ltb in *. simpl in *.
  destruct (feqb b1 a1) eqn:E1.
  - assert (b1 = a1) by (by apply feqb_nonneg_eq). subst.
    rewrite E1 in Hba. f_equal. by apply str_ltb_total.
  - exfalso. destruct (feqb a1 b1) eqn:E2; [clear Hba|]; clear a2 b2;
      float_order.
Qed.

(** ** [sorted] *)

Section SortedBy.
Context {A : Type} (ltb : A -> A -> bool) (P : A -> Prop).

Let le (a b : A) : Prop := ltb b a = false.

Hypothesis ltb_asym : forall a b, P a -> P b -> ltb a b = true -> le a b.
Hypothesis le_trans :
  forall a b c, P a -> P b -> P c -> le a b -> le b c -> le a c.

Lemma insert_sorted_perm (x : A) (l : list A) :
  insert_sorted ltb x l ≡ₚ x :: l.
Proof.
  induction l as [|y l IH]; simpl; [done|].
  destruct (ltb y x); [|done]. rewrite IH. apply Permutation_swap.
Qed.

Lemma sorted_by_perm (l : list A) : sorted_by ltb l ≡ₚ l.
Proof.
  induction l as [|x l IH]; simpl; [done|].
  by rewrite insert_sorted_perm, IH.
Qed.

Lemma insert_sorted_sorted (x : A) (l : list A) :
  P x -> Forall P l -> StronglySorted le l ->
  StronglySorted le (insert_sorted ltb x l).
Proof.
  intros Hx Hl Hs. induction Hs as [|y l Hs IH Hy]; simpl.
  - repeat constructor.
  - apply Forall_cons in Hl as [Py Pl].
    destruct (ltb y x) eqn:E.
    + constructor; [by apply IH|].
      rewrite insert_sorted_perm. constructor; [by apply ltb_asym|done].
    + constructor; [by constructor|].
      constructor; [done|].
      rewrite Forall_forall in Hy, Pl |- *. intros z Hz.
      apply (le_trans x y z); auto.
Qed.

Lemma sorted_by_sorted (l : list A) :
  Forall P l -> StronglySorted le (sorted_by ltb l).
Proof.
  induction 1 as [|x l Hx Hl IH]; simpl; [constructor|].
  apply insert_sorted_sorted; [done| |done].
  by rewrite sorted_by_perm.
Qed.
End SortedBy.

Lemma sorted_perm (l : list entry) : sorted l ≡ₚ l.
Proof. apply sorted_by_perm. Qed.

Lemma sorted_sorted (l : list entry) :
  Forall parsed_entry l -> StronglySorted entry_le (sorted l).
Proof.
  apply (sorted_by_sorted entry_ltb parsed_entry).
  - apply entry_ltb_asym.
  - apply entry_le_trans.
Qed.

(** Whatever way a sort that compares with [<] takes, it comes to the one
    list that has the elements of [l] and in which no entry is followed by
    a smaller one. *)
Lemma sorted_unique (l l' : list entry) :
  Forall parsed_entry l -> l' ≡ₚ l -> StronglySorted entry_le l' ->
  l' = sorted l.
Proof.
  intros Hl Hp Hs.
  apply (StronglySorted_unique_strong entry_le); auto.
  - intros a b Ha Hb. rewrite Forall_forall in Hl.
    apply entry_le_antisym; apply Hl.
    + by rewrite <- Hp.
    + by rewrite <- (sorted_perm l).
  - by apply sorted_sorted.
  - by rewrite sorted_perm.
Qed.

Lemma entry_le_timestamp (a b : entry) :
  parsed_entry a -> parsed_entry b -> entry_le a b -> timestamp_le a b.
Proof. unfold timestamp_le. intros. entry_order. Qed.

(** ** Rounding never makes a number of nothing *)

Lemma shr_1_nonneg (mrs : shr_record) :
  (0 <= shr_m mrs)%Z -> (0 <= shr_m (shr_1 mrs))%Z.
Proof. destruct mrs as [[|[p|p|]|p] r s]; simpl; lia. Qed.

Lemma iter_pos_shr_1_nonneg (p : positive) (mrs : shr_record) :
  (0 <= shr_m mrs)%Z -> (0 <= shr_m (SpecFloat.iter_pos shr_1 p mrs))%Z.
Proof.
  revert mrs. induction p as [p IH|p IH|]; intros mrs H; simpl;
    auto using shr_1_nonneg.
Qed.

Lemma shr_fexp_nonneg (m e : Z) (l : location) :
  (0 <= m)%Z -> (0 <= shr_m (shr_fexp prec emax m e l).1)%Z.
Proof.
  intros Hm. unfold shr_fexp, shr.
  assert (H0 : (0 <= shr_m (shr_record_of_loc m l))%Z).
  { by destruct l as [|[]]. }
  destruct (fexp prec emax (Zdigits2 m + e) - e)%Z; simpl; auto.
  by apply iter_pos_shr_1_nonneg.
Qed.

Lemma round_nearest_even_nonneg (m : Z) (l : location) :
  (0 <= m)%Z -> (0 <= round_nearest_even m l)%Z.
Proof. destruct l as [|[]]; simpl; try lia. destruct (Z.even m); lia. Qed.

Lemma binary_round_aux_sign (sx : bool) (mx ex : Z) (lx : location) :
  (0 <= mx)%Z -> has_sign sx (binary_round_aux prec emax sx mx ex lx).
Proof.
  intros Hm. unfold binary_round_aux.
  pose proof (shr_fexp_nonneg mx ex lx Hm) as H1.
  destruct (shr_fexp prec emax mx ex lx) as [mrs' e']. simpl in H1.
  pose proof (shr_fexp_nonneg
    (round_nearest_even (shr_m mrs') (loc_of_shr_record mrs')) e' loc_Exact
    (round_nearest_even_nonneg _ _ H1)) as H2.
  destruct (shr_fexp prec emax _ e' loc_Exact) as [mrs'' e'']. simpl in H2.
  destruct (shr_m mrs''); simpl; [done| |lia].
  by destruct (e'' <=? emax - prec)%Z.
Qed.

Lemma binary_normalize_not_nan (m e : Z) :
  is_nan (binary_normalize prec emax m e false) = false.
Proof.
  destruct m as [|p|p]; simpl; [done| |]; unfold binary_round;
    destruct (shl_align _ _ _) as [mz ez];
    match goal with |- context [binary_round_aux _ _ ?s ?m ?e ?l] =>
      pose proof (binary_round_aux_sign s m e l ltac:(lia)) as H;
      by destruct (binary_round_aux _ _ s m e l)
    end.
Qed.

Lemma nearest_ratio_sign (n : Z) (d : positive) :
  has_sign (n <? 0)%Z (nearest_ratio n d).
Proof.
  destruct n as [|p|p]; simpl; [done| |];
    unfold SFdiv, SFdiv_core_binary;
    match goal with |- context [Z.div_eucl ?a ?b] =>
      pose proof (Z_div_mod a b ltac:(lia)) as Hd;
      destruct (Z.div_eucl a b) as [q r] eqn:E
    end;
    apply binary_round_aux_sign.
  all: destruct Hd as [Hd Hr];
    match type of Hd with ?a = _ => assert (Ha : (0 <= a)%Z) end.
  all: try nia.
  all: match goal with |- (0 <= match ?s with _ => _ end)%Z =>
         destruct s eqn:Es; try lia; apply Z.shiftl_nonneg; lia end.
Qed.

Lemma nearest_ratio_nonneg (n : Z) (d : positive) :
  (0 <= n)%Z -> nonneg (nearest_ratio n d) = true.
Proof.
  intros Hn. pose proof (nearest_ratio_sign n d) as H.
  replace (n <? 0)%Z with false in H by (symmetry; apply Z.ltb_ge; lia).
  destruct (nearest_ratio n d) as [[]|[]| |[] ? ?]; simpl in *; done.
Qed.

Lemma nearest_ratio_not_nan (n : Z) (d : positive) :
  is_nan (nearest_ratio n d) = false.
Proof.
  pose proof (nearest_ratio_sign n d) as H.
  by destruct (nearest_ratio n d).
Qed.

Lemma fadd_nonneg (x y : float) :
  nonneg x = true -> nonneg y = true -> nonneg (fadd x y) = true.
Proof.
  destruct x as [[]|[]| |[] mx ex], y as [[]|[]| |[] my ey]; simpl; try done.
  intros _ _. unfold binary_round. destruct (shl_align _ _ _) as [mz ez].
  pose proof (binary_round_aux_sign false (Z.pos mz) ez loc_Exact ltac:(lia)).
  by destruct (binary_round_aux _ _ _ _ _ _) as [[]|[]| |[] ? ?].
Qed.

(** The sum of two numbers that are not infinite is a number. *)
Lemma fadd_not_nan (x y : float) :
  is_nan x = false -> is_inf x = false ->
  is_nan y = false -> is_inf y = false -> is_nan (fadd x y) = false.
Proof.
  destruct x as [[]|[]| |sx mx ex], y as [[]|[]| |sy my ey]; try done.
  intros _ _ _ _. apply binary_normalize_not_nan.
Qed.

(** ** The conversions on known numbers *)

Example nearest_ratio_tenth :
  nearest_ratio 1 10 = S754_finite false 7205759403792794 (-56).
Proof. reflexivity. Qed.

Example nearest_ratio_ties_to_even :
  nearest_ratio 9007199254740993 1 = S754_finite false 4503599627370496 1 /\
  nearest_ratio 9007199254740995 1 = S754_finite false 4503599627370498 1.
Proof. split; reflexivity. Qed.

Example float_of_int_largest :
  float_of_int (2 ^ 1024 - 2 ^ 970 - 1) =
    ok (S754_finite false 9007199254740991 971) /\
  float_of_int (2 ^ 1024 - 2 ^ 970) = raise OverflowError.
Proof. split; reflexivity. Qed.

(** ** The pattern *)

Section ParseFacts.
Context `{!Runtime}.

Lemma span_digits_inv (s d r : pystr) :
  span_digits s = (d, r) ->
  s = d ++ r /\ Forall (fun c => is_decimal c = true) d /\ stops r.
Proof.
  revert d r. induction s as [|c s IH]; intros d r; simpl.
  - intros [= <- <-]. done.
  - destruct (is_decimal c) eqn:E.
    + destruct (span_digits s) as [d' r']. intros [= <- <-].
      destruct (IH d' r' eq_refl) as (-> & Hd & Hr).
      repeat split; auto.
    + intros [= <- <-]. repeat split; auto.
Qed.

Lemma span_digits_app (d r : pystr) :
  Forall (fun c => is_decimal c = true) d -> stops r ->
  span_digits (d ++ r) = (d, r).
Proof.
  intros Hd Hr. induction Hd as [|c d Hc Hd IH]; simpl.
  - destruct r as [|c r]; [done|]. simpl in *. by rewrite Hr.
  - by rewrite Hc, IH.
Qed.

Lemma digits1_Some (s d r : pystr) :
  digits1 s = Some (d, r) <-> s = d ++ r /\ digits d /\ stops r.
Proof.
  unfold digits1, digits. split.
  - destruct (span_digits s) as [d' r'] eqn:E.
    apply span_digits_inv in E as (-> & Hd & Hr).
    destruct d' as [|c d']; [done|]. intros [= <- <-]. done.
  - intros (-> & [Hne Hd] & Hr). rewrite span_digits_app by done.
    by destruct d.
Qed.

Lemma digits1_before (d : pystr) (c : N) (r : pystr) :
  digits d -> is_decimal c = false ->
  digits1 (d ++ c :: r) = Some (d, c :: r).
Proof. intros. by apply digits1_Some. Qed.

Lemma expect_Some (c : ascii) (s r : pystr) :
  expect c s = Some r <-> s = chr c :: r.
Proof.
  unfold expect. destruct s as [|x s]; [done|].
  destruct (N.eqb_spec x (chr c)) as [->|Hne]; split; congruence.
Qed.

Lemma not_decimal_ascii (c : N) :
  (c < 128)%N -> ascii_decimal c = None -> is_decimal c = false.
Proof.
  intros Hlt Hc. unfold is_decimal. by rewrite unicode_decimal_ascii, Hc.
Qed.

Lemma dot_star_inv (s : pystr) :
  exists rest, s = dot_star s ++ rest /\
    Forall (fun c => c <> LF) (dot_star s) /\
    (rest = [] \/ exists rest', rest = LF :: rest').
Proof.
  induction s as [|c s (rest & E & Hf & Hr)]; simpl.
  - exists []. auto.
  - destruct (N.eqb_spec c LF) as [->|Hne].
    + exists (LF :: s). eauto.
    + exists rest. simpl. rewrite <- E. auto.
Qed.

Lemma dot_star_app (g rest : pystr) :
  Forall (fun c => c <> LF) g ->
  (rest = [] \/ exists rest', rest = LF :: rest') ->
  dot_star (g ++ rest) = g.
Proof.
  intros Hg Hr. induction Hg as [|c g Hc Hg IH]; simpl.
  - by destruct Hr as [->|[r' ->]].
  - destruct (N.eqb_spec c LF); [done|]. by rewrite IH.
Qed.

(** The matcher finds the groups the pattern describes, and no others. *)
Lemma match_line_spec (line g1 g2 g3 : pystr) :
  match_line line = Some (g1, g2, g3) <-> matches_pattern line g1 g2 g3.
Proof.
  unfold match_line, matches_pattern. split.
  - intros Hm.
    destruct (expect "[" line) as [r0|] eqn:E0; [|done]. simpl in Hm.
    destruct (digits1 r0) as [[g1' r1]|] eqn:E1; [|done]. simpl in Hm.
    destruct (expect ":" r1) as [r2|] eqn:E2; [|done]. simpl in Hm.
    destruct (digits1 r2) as [[d2 r3]|] eqn:E3; [|done]. simpl in Hm.
    destruct (expect "." r3) as [r4|] eqn:E4; [|done]. simpl in Hm.
    destruct (digits1 r4) as [[d3 r5]|] eqn:E5; [|done]. simpl in Hm.
    destruct (expect "]" r5) as [r6|] eqn:E6; [|done]. simpl in Hm.
    injection Hm as <- <- <-.
    apply expect_Some in E0, E2, E4, E6.
    apply digits1_Some in E1 as (-> & ? & _), E3 as (-> & ? & _),
      E5 as (-> & ? & _).
    subst. destruct (dot_star_inv r6) as (rest & Er & ? & ?).
    exists d2, d3, rest. rewrite <- Er. done.
  - intros (d2 & d3 & rest & -> & H1 & H2 & H3 & -> & Hg & Hr).
    assert (Hcolon : is_decimal (chr ":") = false)
      by (by apply not_decimal_ascii).
    assert (Hdot : is_decimal (chr ".") = false)
      by (by apply not_decimal_ascii).
    assert (Hclose : is_decimal (chr "]") = false)
      by (by apply not_decimal_ascii).
    rewrite (proj2 (expect_Some "[" _ _) eq_refl). simpl.
    rewrite digits1_before by done. simpl.
    rewrite digits1_before by done. simpl.
    rewrite digits1_before by done. simpl.
    by rewrite dot_star_app.
Qed.
End ParseFacts.

(** ** Lines and entries *)

Lemma splitlines_from_no_break (cur s line : pystr) :
  Forall (fun c => is_linebreak c = false) cur ->
  line ∈ splitlines_from cur s ->
  Forall (fun c => is_linebreak c = false) line.
Proof.
  revert cur. induction s as [s IH] using (induction_ltof1 _ length).
  unfold ltof in IH. intros cur Hcur. destruct s as [|c rest]; simpl.
  - destruct cur; [by intros ?%elem_of_nil|].
    intros ->%list_elem_of_singleton. by apply Forall_rev.
  - destruct (is_linebreak c) eqn:E.
    + intros [->|Hin]%elem_of_cons; [by apply Forall_rev|].
      destruct rest as [|c' rest']; [by apply elem_of_nil in Hin|].
      destruct ((c =? CR)%N && (c' =? LF)%N);
        (eapply IH; [|constructor|exact Hin]); simpl; lia.
    + apply IH; [simpl; lia|]. by constructor.
Qed.

Lemma splitlines_no_break (s line : pystr) :
  line ∈ splitlines s -> Forall (fun c => is_linebreak c = false) line.
Proof. by apply splitlines_from_no_break. Qed.

Lemma StronglySorted_lookup_lt {A} (R : relation A) (l : list A) i j a b :
  StronglySorted R l -> l !! i = Some a -> l !! j = Some b -> (i < j)%nat ->
  R a b.
Proof.
  intros Hs. revert i j.
  induction Hs as [|x l Hs IH Hall]; intros i j Hi Hj Hij; [done|].
  destruct i as [|i], j as [|j]; simpl in *; try lia.
  - injection Hi as <-. rewrite Forall_forall in Hall.
    apply Hall. eapply list_elem_of_lookup_2; eauto.
  - apply (IH i j); auto; lia.
Qed.

Lemma feqb_sym (x y : float) : feqb x y = feqb y x.
Proof. float_order. Qed.

Section EntryFacts.
Context `{!Runtime}.

Lemma digits_value_nonneg (s : pystr) (acc v : Z) :
  (0 <= acc)%Z -> digits_value acc s = Some v -> (0 <= v)%Z.
Proof.
  revert acc. induction s as [|c s IH]; intros acc Hacc; simpl.
  - intros [= <-]. done.
  - destruct (unicode_decimal c) as [d|]; [|done]. apply IH. lia.
Qed.

Lemma py_int_nonneg (s : pystr) (m : Z) : py_int s = ok m -> (0 <= m)%Z.
Proof.
  unfold py_int. destruct (_ && _); [done|].
  destruct s as [|c s]; [done|].
  destruct (digits_value 0 (c :: s)) as [v|] eqn:E; [|done].
  intros [= <-]. by eapply digits_value_nonneg.
Qed.

Lemma py_float_nonneg (s : pystr) (f : float) :
  py_float s = ok f -> nonneg f = true.
Proof.
  unfold py_float. destruct (span_digits s) as [ip r].
  destruct ip as [|i ip]; [done|]. destruct r as [|c fp]; [done|].
  destruct (c =? chr ".")%N; [|done]. destruct fp as [|d fp]; [done|].
  destruct (digits_value 0 _) as [v|] eqn:E; [|done].
  intros [= <-]. apply nearest_ratio_nonneg. by eapply digits_value_nonneg.
Qed.

Lemma float_of_int_nonneg (n : Z) (f : float) :
  (0 <= n)%Z -> float_of_int n = ok f -> nonneg f = true.
Proof.
  unfold float_of_int. intros Hn. destruct (is_inf _); [done|].
  intros [= <-]. by apply nearest_ratio_nonneg.
Qed.

(** What the body of [if match:] makes of the groups of a match. *)
Lemma entry_of_match_inv (g1 g2 g3 : pystr) (e : entry) :
  entry_of_match (g1, g2, g3) = ok e ->
  exists m s m60,
    py_int g1 = ok m /\ py_float g2 = ok s /\
    float_of_int (m * 60) = ok m60 /\
    e = (fadd m60 s, strip g3).
Proof.
  unfold entry_of_match.
  destruct (py_int g1) as [|m]; simpl; [done|].
  destruct (py_float g2) as [|s]; simpl; [done|].
  destruct (float_of_int (m * 60)) as [|m60] eqn:E; simpl; [done|].
  intros [= <-]. exists m, s, m60. auto.
Qed.

Lemma entry_of_match_parsed (g : pystr * pystr * pystr) (e : entry) :
  entry_of_match g = ok e -> parsed_entry e.
Proof.
  destruct g as [[g1 g2] g3].
  intros (m & s & m60 & Hm & Hs & Hm60 & ->)%entry_of_match_inv.
  apply fadd_nonneg.
  - eapply float_of_int_nonneg; [|done]. apply py_int_nonneg in Hm. lia.
  - by eapply py_float_nonneg.
Qed.

Lemma entries_of_parsed gs (es : list entry) :
  entries_of gs = ok es -> Forall parsed_entry es.
Proof.
  revert es. induction gs as [|g gs IH]; intros es; simpl.
  - intros [= <-]. constructor.
  - destruct (entry_of_match g) as [|e] eqn:E; simpl; [done|].
    destruct (entries_of gs) as [|es']; simpl; [done|].
    intros [= <-]. constructor; [by eapply entry_of_match_parsed|by apply IH].
Qed.

(** The [for] loop appends to [lyrics_data] the entries of the lines
    that match, in the order of the lines. *)
Lemma parse_lines_entries_of (lines : list pystr) (lyrics_data : list entry) :
  parse_lines lines lyrics_data =
  try! es := entries_of (omap match_line lines) in ok (lyrics_data ++ es).
Proof.
  revert lyrics_data. induction lines as [|line lines IH];
    intros lyrics_data; simpl.
  - by rewrite app_nil_r.
  - destruct (match_line line) as [g|]; simpl; [|apply IH].
    destruct (entry_of_match g) as [|e]; simpl; [done|].
    rewrite IH. destruct (entries_of _) as [|es]; simpl; [done|].
    by rewrite <- app_assoc.
Qed.

Lemma parse_lrc_entries_of (lrc_text : pystr) :
  parse_lrc lrc_text =
  try! es := entries_of (matches_of lrc_text) in ok (sorted es).
Proof.
  unfold parse_lrc, matches_of. rewrite parse_lines_entries_of.
  by destruct (entries_of _).
Qed.

Lemma strongly_sorted_timestamps (doc : list entry) :
  Forall parsed_entry doc -> StronglySorted entry_le doc ->
  lyric_document doc.
Proof.
  intros Hp Hs. split.
  - eapply Forall_impl; [exact Hp|]. intros e. apply nonneg_not_nan.
  - apply StronglySorted_Sorted.
    induction Hs as [|a l Hs IH Ha]; [constructor|].
    apply Forall_cons in Hp as [Pa Pl].
    constructor; [by apply IH|].
    rewrite Forall_forall in Ha, Pl |- *. intros b Hb.
    apply entry_le_timestamp; auto.
Qed.

(** C2, as the code has it. When [parse_lrc] returns a document, the
    document has the entries of the matching lines, each as often as it
    was matched, in ascending order of the pairs (timestamp, text): the
    timestamps never decrease, and entries with equal timestamps are in
    ascending order of their texts (code point by code point), which
    need not be the order of the lines. No other arrangement of the
    entries is in that order. *)
Theorem parse_lrc_sorted_by_timestamp_then_text (lrc_text : pystr)
    (doc : list entry) :
  parse_lrc lrc_text = ok doc ->
  exists es,
    entries_of (matches_of lrc_text) = ok es /\
    doc ≡ₚ es /\
    StronglySorted entry_le doc /\
    Sorted timestamp_le doc /\
    (forall i j a b, doc !! i = Some a -> doc !! j = Some b ->
       (i < j)%nat -> feqb a.1 b.1 = true -> str_ltb b.2 a.2 = false) /\
    (forall doc', doc' ≡ₚ es -> StronglySorted entry_le doc' -> doc' = doc).
Proof.
  rewrite parse_lrc_entries_of.
  destruct (entries_of (matches_of lrc_text)) as [|es] eqn:E; simpl; [done|].
  intros [= <-]. exists es.
  pose proof (entries_of_parsed _ _ E) as Hp.
  pose proof (sorted_sorted es Hp) as Hs.
  repeat split; auto using sorted_perm.
  - apply strongly_sorted_timestamps; [|done].
    by rewrite sorted_perm.
  - intros i j a b Hi Hj Hij Hab.
    pose proof (StronglySorted_lookup_lt _ _ _ _ _ _ Hs Hi Hj Hij) as Hle.
    unfold entry_le, entry_ltb in Hle. by rewrite feqb_sym, Hab in Hle.
  - intros doc' Hperm Hs'. by apply sorted_unique.
Qed.
End EntryFacts.

(** ** [bisect_right] always returns *)

Lemma bisect_loop_returns (a : list float) (x : float) (lo hi : nat) :
  (lo <= hi)%nat -> (hi <= length a)%nat ->
  exists idx, bisect_loop a x lo hi = ok idx /\ (lo <= idx <= hi)%nat.
Proof.
  apply (bisect_loop_elim (fun a x lo hi r =>
    (lo <= hi)%nat -> (hi <= length a)%nat ->
    exists idx, r = ok idx /\ (lo <= idx <= hi)%nat)); clear a x lo hi.
  - intros a x lo hi Hn _ Hlh Hlen. exists lo. split; [done|lia].
  - intros a x lo hi Hl Hnone _ Hlh Hlen. exfalso.
    apply lookup_ge_None in Hnone. pose proof (half_bounds lo hi Hl). lia.
  - intros a x lo hi v Hl IH _ _ _ Hlh Hlen.
    pose proof (half_bounds lo hi Hl).
    destruct IH as (idx & -> & Hr); try lia. exists idx. split; [done|lia].
  - intros a x lo hi v Hl IH _ _ _ Hlh Hlen.
    pose proof (half_bounds lo hi Hl).
    destruct IH as (idx & -> & Hr); try lia. exists idx. split; [done|lia].
Qed.

Lemma bisect_right_returns (a : list float) (x : float) :
  exists idx, bisect_right a x = ok idx /\ (idx <= length a)%nat.
Proof.
  destruct (bisect_loop_returns a x 0 (length a)) as (idx & ? & ?); try lia.
  exists idx. split; [done|lia].
Qed.

(** With the index list of the document, the lookup returns a line. *)
Lemma active_line_returns (doc : list entry) (pos : float) :
  exists line, active_line doc (map fst doc) pos = ok line.
Proof.
  unfold active_line.
  destruct (bisect_right_returns (map fst doc) pos) as (idx & -> & Hlen).
  rewrite length_map in Hlen. simpl.
  destruct (0 <? idx)%nat eqn:E; [|eauto].
  apply Nat.ltb_lt in E.
  destruct (lookup_lt_is_Some_2 doc (idx - 1)%nat ltac:(lia)) as [e ->].
  eauto.
Qed.

Lemma active_line_empty (pos : float) : active_line [] [] pos = ok SENTINEL.
Proof. reflexivity. Qed.

(** ** The cache *)


Section SourceFacts.
Context `{!Runtime}.

Lemma fetch_lyrics_hit (fs : files) (w : outside)
    (artist title album : pystr) (d : float) (content : pystr) :
  fs !! cache_path artist title = Some content ->
  fetch_lyrics fs w artist title album d =
  {| fetched_text := Some (read_text content); fetched_files := fs;
     fetched_requests := 0 |}.
Proof. intros Hc. unfold fetch_lyrics. by rewrite Hc. Qed.

(** A call that sent a request and returned a text stored that text. *)
Lemma fetch_lyrics_stored (fs : files) (w : outside)
    (artist title album : pystr) (d : float) (text : pystr) :
  let r := fetch_lyrics fs w artist title album d in
  fetched_text r = Some text -> fetched_requests r = 1%nat ->
  fetched_files r = <[cache_path artist title := write_text text]> fs.
Proof.
  unfold fetch_lyrics.
  destruct (fs !! cache_path artist title); [done|].
  destruct (lrclib w _) as [|status [|[v|]]]; simpl; try done.
  destruct ((status =? 200)%Z && json_truthy v); simpl; [|done].
  unfold store. destruct (can_create w _); simpl; [|done].
  destruct v as [|s|]; simpl; try done.
  destruct (encodable s); simpl; [|done]. by intros [= ->] _.
Qed.
End SourceFacts.

(** ** The notifications of a run *)

Lemma chain_app (prev : option pystr) (o1 o2 : list pystr) :
  chain prev (o1 ++ o2) <-> chain prev o1 /\ chain (last_emitted prev o1) o2.
Proof.
  revert prev. induction o1 as [|x o1 IH]; intros prev; simpl.
  - tauto.
  - rewrite IH. unfold last_emitted. simpl. tauto.
Qed.

Lemma last_emitted_app (prev : option pystr) (o1 o2 : list pystr) :
  last_emitted prev (o1 ++ o2) = last_emitted (last_emitted prev o1) o2.
Proof. apply foldl_app. Qed.

Lemma chain_adjacent (prev : option pystr) (out : list pystr) i x :
  chain prev out -> out !! i = Some x -> out !! S i = Some x -> x = SEARCHING.
Proof.
  revert prev i. induction out as [|y out IH]; intros prev i; [done|].
  simpl. intros [_ Hc]. destruct i as [|i]; simpl.
  - intros [= ->]. destruct out as [|z out]; [done|]. simpl.
    intros [= ->]. simpl in Hc. by apply Hc.
  - by apply (IH (Some y)).
Qed.

Lemma str_eqb_eq (a b : pystr) : str_eqb a b = true <-> a = b.
Proof. unfold str_eqb. by rewrite bool_decide_eq_true. Qed.

Lemma str_eqb_neq (a b : pystr) : str_eqb a b = false <-> a <> b.
Proof. unfold str_eqb. by rewrite bool_decide_eq_false. Qed.

(** A guarded emission: nothing when the text is the one displayed, the
    text otherwise; in both cases the text is the one displayed after. *)
Lemma show_spec (text : pystr) (st : tracker) :
  let '(out, st1) := show text st in
  curr_text st1 = text /\ last_id st1 = last_id st /\
  parsed_lyrics st1 = parsed_lyrics st /\ ts_list st1 = ts_list st /\
  is_fetching st1 = is_fetching st /\
  ((out = [] /\ curr_text st = text /\ st1 = st) \/
   (out = [text] /\ curr_text st <> text)).
Proof.
  unfold show. destruct (str_eqb (curr_text st) text) eqn:E.
  - apply str_eqb_eq in E. auto 10.
  - apply str_eqb_neq in E. simpl. auto 10.
Qed.

Lemma show_chain (text : pystr) (st : tracker) (prev : option pystr) :
  remembers prev st ->
  chain prev (show text st).1 /\
  remembers (last_emitted prev (show text st).1) (show text st).2.
Proof.
  intros Hr. pose proof (show_spec text st) as Hs.
  destruct (show text st) as [out st1]. simpl.
  destruct Hs as (Hc & _ & _ & _ & _ & [(-> & Hcur & ->)|(-> & Hne)]).
  - done.
  - simpl. split.
    + split; [|done]. intros Hp. destruct (Hr _ Hp) as [?|[? _]]; done.
    + intros x [= <-]. by left.
Qed.

(** ** The turns of the loop *)

Lemma position_check_paused (st : tracker) (s : session) (now : Z) :
  playback_status s <> PLAYING -> position_check st s now = ([], ok st).
Proof.
  intros Hp. unfold position_check.
  by destruct (Z.eqb_spec (playback_status s) PLAYING).
Qed.

Lemma position_check_chain (st : tracker) (s : session) (now : Z)
    (prev : option pystr) :
  remembers prev st ->
  chain prev (position_check st s now).1 /\
  forall st1, (position_check st s now).2 = ok st1 ->
    remembers (last_emitted prev (position_check st s now).1) st1.
Proof.
  intros Hr. unfold position_check.
  destruct (playback_status s =? PLAYING)%Z; [|by split; [|intros ? [= <-]]].
  destruct (try! time_diff := total_seconds _ in _) as [e|line];
    [by split|].
  pose proof (show_chain line st prev Hr) as [Hc Hr'].
  destruct (show line st) as [out st1]. simpl in *.
  split; [done|]. by intros ? [= <-].
Qed.

Lemma position_check_keeps (st st1 : tracker) (s : session) (now : Z) :
  (position_check st s now).2 = ok st1 ->
  last_id st1 = last_id st /\ parsed_lyrics st1 = parsed_lyrics st /\
  ts_list st1 = ts_list st /\ is_fetching st1 = is_fetching st.
Proof.
  unfold position_check.
  destruct (playback_status s =? PLAYING)%Z; [|by intros [= <-]].
  destruct (try! time_diff := total_seconds _ in _) as [e|line]; [done|].
  pose proof (show_spec line st) as Hs.
  destruct (show line st) as [out st']. simpl. intros [= <-]. tauto.
Qed.

Lemma show_emitted_if_new (text : pystr) (st : tracker) :
  emitted_if_new (curr_text st) text (show text st).1 /\
  curr_text (show text st).2 = text.
Proof.
  pose proof (show_spec text st) as Hs.
  destruct (show text st) as [out st1]. simpl.
  destruct Hs as (-> & _ & _ & _ & _ & [(-> & Hcur & _)|(-> & Hne)]).
  - split; [|done]. by left.
  - split; [|done]. right. split; [|done]. by intros ->.
Qed.

Lemma emitted_if_new_shown (displayed x : pystr) (out : list pystr) :
  emitted_if_new displayed x out ->
  (out = [] \/ exists y, out = [y] /\ y <> displayed) /\
  default displayed (last out) = x.
Proof.
  intros [[-> ->]|[Hne ->]]; [by split; [left|]|].
  split; [|done]. right. eauto.
Qed.

Lemma position_check_sites (st : tracker) (s : session) (now : Z) :
  ((position_check st s now).1 = [] \/
   exists x, (position_check st s now).1 = [x] /\ x <> curr_text st) /\
  (forall st1, (position_check st s now).2 = ok st1 ->
     curr_text st1 = default (curr_text st) (last (position_check st s now).1)) /\
  ((position_check st s now).1 <> [] -> playback_status s = PLAYING).
Proof.
  unfold position_check.
  destruct (Z.eqb_spec (playback_status s) PLAYING) as [Hp|Hp].
  - destruct (try! time_diff := total_seconds _ in _) as [e|line]; simpl.
    + split; [by left|]. by split.
    + destruct (show_emitted_if_new line st) as [He Hc].
      destruct (show line st) as [out st1]. simpl in *.
      destruct (emitted_if_new_shown _ _ _ He) as [Hs Hd].
      split; [done|]. split; [|done]. intros ? [= <-]. by rewrite Hd.
  - simpl. split; [by left|]. split; [|done]. by intros ? [= <-].
Qed.

Lemma position_check_line (st : tracker) (s : session) (now : Z)
    (p d : float) (line : pystr) :
  playback_status s = PLAYING ->
  total_seconds (position s) = ok p ->
  total_seconds (now - last_updated_time s) = ok d ->
  active_line (parsed_lyrics st) (ts_list st) (fadd p d) = ok line ->
  emitted_if_new (curr_text st) line (position_check st s now).1.
Proof.
  intros Hp Hpos Hd Hl. unfold position_check.
  rewrite Hp, Z.eqb_refl, Hd, Hpos. simpl. rewrite Hl.
  destruct (show_emitted_if_new line st) as [He _].
  by destruct (show line st).
Qed.

Section TrackerFacts.
Context `{!Runtime}.

Lemma song_id_not_empty (s : session) : song_id_of s <> [].
Proof. unfold song_id_of. by destruct (title s). Qed.

Lemma track_change_coherent (st st1 : tracker) (fs : files) (s : session)
    (w : outside) :
  coherent st -> after (track_change st fs s w) = ok st1 ->
  is_fetching st1 = false /\ ts_list st1 = map fst (parsed_lyrics st1) /\
  last_id st1 = song_id_of s.
Proof.
  intros [Hf Hc]. unfold track_change, track_changed. rewrite Hf. simpl.
  rewrite andb_true_r.
  destruct (str_eqb (song_id_of s) (last_id st)) eqn:E; simpl.
  - intros [= <-]. apply str_eqb_eq in E.
    destruct Hc as [Hc|Hc]; [done|].
    rewrite Hc in E. by apply song_id_not_empty in E.
  - destruct (total_seconds (end_time s)) as [|d]; simpl; [done|].
    destruct (install _) as [|parsed]; simpl; [done|].
    by intros [= <-].
Qed.

Lemma track_change_chain (st : tracker) (fs : files) (s : session)
    (w : outside) (prev : option pystr) :
  remembers prev st ->
  chain prev (emitted (track_change st fs s w)) /\
  forall st1, after (track_change st fs s w) = ok st1 ->
    remembers (last_emitted prev (emitted (track_change st fs s w))) st1.
Proof.
  intros Hr. unfold track_change.
  destruct (track_changed st s); simpl; [|by split; [|intros ? [= <-]]].
  destruct (total_seconds (end_time s)) as [|d]; simpl; [done|].
  split; [done|]. intros st1.
  destruct (install _) as [|parsed]; simpl; [done|].
  intros [= <-] x [= <-]. by right.
Qed.

Lemma poll_coherent (st st1 : tracker) (fs : files) (t : tick) :
  coherent st -> after (poll st fs t) = ok st1 -> coherent st1.
Proof.
  intros Hc. unfold poll.
  destruct (current_session t) as [s|].
  - destruct (is_spotify s).
    + pose proof (track_change_coherent st) as Ht.
      destruct (after (track_change st fs s (world t))) as [e|st'] eqn:E.
      * by rewrite E.
      * destruct (Ht st' fs s (world t) Hc E) as (Hf & Hts & _).
        pose proof (position_check_keeps st' st1 s (now t)) as Hk.
        destruct (position_check st' s (now t)) as [out st2]. simpl in *.
        intros ->. destruct (Hk eq_refl) as (_ & Hp & Hl & Hi).
        split; [congruence|]. left. congruence.
    + pose proof (show_spec NOT_SPOTIFY st) as Hs. unfold wrong_source.
      destruct (show NOT_SPOTIFY st) as [out st']. simpl.
      intros [= <-]. split; simpl; [|by right].
      destruct Hc as [Hf _]. destruct Hs as (_ & _ & _ & _ & -> & _). done.
  - pose proof (show_spec WAITING st) as Hs. unfold no_session.
    destruct (show WAITING st) as [out st']. simpl.
    intros [= <-]. split; simpl; [|by right].
    destruct Hc as [Hf _]. destruct Hs as (_ & _ & _ & _ & -> & _). done.
Qed.

Lemma poll_chain (st : tracker) (fs : files) (t : tick)
    (prev : option pystr) :
  remembers prev st ->
  chain prev (emitted (poll st fs t)) /\
  forall st1, after (poll st fs t) = ok st1 ->
    remembers (last_emitted prev (emitted (poll st fs t))) st1.
Proof.
  intros Hr. unfold poll.
  destruct (current_session t) as [s|].
  - destruct (is_spotify s).
    + pose proof (track_change_chain st fs s (world t) prev Hr) as [Hc Hr'].
      destruct (after (track_change st fs s (world t))) as [e|st'] eqn:E.
      * rewrite E. by split.
      * pose proof (position_check_chain st' s (now t) _ (Hr' _ eq_refl))
          as [Hc2 Hr2].
        destruct (position_check st' s (now t)) as [out st2]. simpl in *.
        rewrite chain_app, last_emitted_app. split; [done|].
        intros st1 ->. by apply Hr2.
    + pose proof (show_chain NOT_SPOTIFY st prev Hr) as [Hc Hr'].
      unfold wrong_source.
      destruct (show NOT_SPOTIFY st) as [out st']. simpl in *.
      split; [done|]. intros st1 [= <-]. exact Hr'.
  - pose proof (show_chain WAITING st prev Hr) as [Hc Hr'].
    unfold no_session.
    destruct (show WAITING st) as [out st']. simpl in *.
    split; [done|]. intros st1 [= <-]. exact Hr'.
Qed.

Lemma run_chain (ts : list tick) (st : tracker) (fs : files)
    (prev : option pystr) :
  remembers prev st -> chain prev (emitted (run st fs ts)).
Proof.
  revert st fs prev. induction ts as [|t ts IH]; intros st fs prev Hr;
    simpl; [done|].
  pose proof (poll_chain st fs t prev Hr) as [Hc Hr'].
  destruct (after (poll st fs t)) as [e|st1]; [done|]. simpl.
  rewrite chain_app. split; [done|]. apply IH. by apply Hr'.
Qed.

Lemma run_coherent (ts : list tick) (st st1 : tracker) (fs : files) :
  coherent st -> after (run st fs ts) = ok st1 -> coherent st1.
Proof.
  revert st fs. induction ts as [|t ts IH]; intros st fs Hc; simpl.
  - by intros [= <-].
  - pose proof (poll_coherent st) as Hp.
    destruct (after (poll st fs t)) as [e|st'] eqn:E; [by rewrite E|].
    simpl. apply IH. by eapply Hp.
Qed.

Lemma initial_coherent : coherent initial.
Proof. split; [done|by left]. Qed.

Lemma poll_sites (st : tracker) (fs : files) (t : tick) :
  is_fetching st = false ->
  exists shown,
    emitted (poll st fs t) =
      (if new_track st t then [SEARCHING] else []) ++ shown /\
    (shown = [] \/
     exists x, shown = [x] /\
       x <> (if new_track st t then [] else curr_text st)) /\
    (forall st1, after (poll st fs t) = ok st1 ->
       curr_text st1 =
         default (if new_track st t then [] else curr_text st) (last shown)) /\
    match current_session t with
    | None => emitted_if_new (curr_text st) WAITING shown
    | Some s =>
        if is_spotify s then
          (shown <> [] -> playback_status s = PLAYING) /\
          forall st1 p d line,
            after (track_change st fs s (world t)) = ok st1 ->
            playback_status s = PLAYING ->
            total_seconds (position s) = ok p ->
            total_seconds (now t - last_updated_time s) = ok d ->
            active_line (parsed_lyrics st1) (ts_list st1) (fadd p d)
              = ok line ->
            emitted_if_new (if new_track st t then [] else curr_text st)
              line shown
        else emitted_if_new (curr_text st) NOT_SPOTIFY shown
    end.
Proof.
  intros Hf. unfold poll, new_track.
  destruct (current_session t) as [s|].
  - destruct (is_spotify s); simpl.
    + unfold track_change, track_changed. rewrite Hf, andb_true_r.
      destruct (str_eqb (song_id_of s) (last_id st)); simpl.
      * destruct (position_check_sites st s (now t)) as (H1 & H2 & H3).
        pose proof (position_check_line st s (now t)) as H4.
        destruct (position_check st s (now t)) as [out r]. simpl in *.
        exists out. split; [done|]. split; [done|]. split; [done|].
        split; [done|]. intros st1 p d line [= <-]. apply H4.
      * destruct (total_seconds (end_time s)) as [e|d]; simpl.
        { exists []. split; [done|]. split; [by left|]. by split. }
        destruct (install _) as [e|parsed]; simpl.
        { exists []. split; [done|]. split; [by left|]. by split. }
        match goal with |- context [position_check ?st1 s (now t)] =>
          destruct (position_check_sites st1 s (now t)) as (H1 & H2 & H3);
          pose proof (position_check_line st1 s (now t)) as H4;
          destruct (position_check st1 s (now t)) as [out r] end.
        simpl in *. exists out. split; [done|]. split; [done|].
        split; [done|]. split; [done|].
        intros st1 p d' line [= <-]. apply H4.
    + unfold wrong_source.
      destruct (show_emitted_if_new NOT_SPOTIFY st) as [He Hc].
      destruct (show NOT_SPOTIFY st) as [out st1]. simpl in *.
      destruct (emitted_if_new_shown _ _ _ He) as [Hs Hd].
      exists out. split; [done|]. split; [done|]. split; [|done].
      intros ? [= <-]. simpl. by rewrite Hd.
  - unfold no_session.
    destruct (show_emitted_if_new WAITING st) as [He Hc].
    destruct (show WAITING st) as [out st1]. simpl in *.
    destruct (emitted_if_new_shown _ _ _ He) as [Hs Hd].
    exists out. split; [done|]. split; [done|]. split; [|done].
    intros ? [= <-]. simpl. by rewrite Hd.
Qed.

(** C6, as the code has it. In every run of the loop, two consecutive
    notifications carry the same text only when that text is
    ["Searching..."]. And in every turn the loop reaches, the
    notifications are these: first ["Searching..."], exactly when the
    turn has a session of Spotify whose [song_id] is not [last_id], and
    without a comparison with [curr_text], which the fetch then empties;
    after it at most one text, emitted exactly when it differs from the
    text displayed ([curr_text], or the empty text after a fetch), and
    kept as the new [curr_text]: ["Waiting for Spotify..."] without a
    session, ["Not Spotify"] with the session of another application, and
    the line found at the estimated position when Spotify plays. *)
Theorem repeated_notification_is_searching (fs0 : files) (ts : list tick) :
  (forall i x,
     emitted (run initial fs0 ts) !! i = Some x ->
     emitted (run initial fs0 ts) !! S i = Some x ->
     x = SEARCHING) /\
  forall st t, after (run initial fs0 ts) = ok st ->
    exists shown,
      emitted (poll st (cache (run initial fs0 ts)) t) =
        (if new_track st t then [SEARCHING] else []) ++ shown /\
      (shown = [] \/
       exists x, shown = [x] /\
         x <> (if new_track st t then [] else curr_text st)) /\
      (forall st1, after (poll st (cache (run initial fs0 ts)) t) = ok st1 ->
         curr_text st1 =
           default (if new_track st t then [] else curr_text st)
                   (last shown)) /\
      match current_session t with
      | None => emitted_if_new (curr_text st) WAITING shown
      | Some s =>
          if is_spotify s then
            (shown <> [] -> playback_status s = PLAYING) /\
            forall st1 p d line,
              after (track_change st (cache (run initial fs0 ts)) s (world t))
                = ok st1 ->
              playback_status s = PLAYING ->
              total_seconds (position s) = ok p ->
              total_seconds (now t - last_updated_time s) = ok d ->
              active_line (parsed_lyrics st1) (ts_list st1) (fadd p d)
                = ok line ->
              emitted_if_new (if new_track st t then [] else curr_text st)
                line shown
          else emitted_if_new (curr_text st) NOT_SPOTIFY shown
      end.
Proof.
  split.
  - intros i x. apply (chain_adjacent None). by apply run_chain.
  - intros st t Hrun. apply poll_sites.
    by destruct (run_coherent ts initial st fs0 initial_coherent Hrun).
Qed.

(** C10. In every state the loop reaches, when a turn with a Spotify
    session comes to the position check (the fetch of lines 80 to 86
    done or skipped, without an exception), [ts_list] is the list of the
    timestamps of [parsed_lyrics], in order, and so the lookup of that
    turn finds a line whatever the position. The branch for another
    application empties [parsed_lyrics] and leaves [ts_list], but it
    also empties [last_id], which no [song_id] equals, so the next turn
    with a Spotify session fetches and sets both. *)
Theorem ts_list_indexes_parsed_lyrics (fs0 : files) (ts : list tick)
    (st : tracker) (t : tick) (s : session) (st1 : tracker) :
  after (run initial fs0 ts) = ok st ->
  current_session t = Some s -> is_spotify s = true ->
  after (track_change st (cache (run initial fs0 ts)) s (world t)) = ok st1 ->
  ts_list st1 = map fst (parsed_lyrics st1) /\
  after (poll st (cache (run initial fs0 ts)) t) =
    (position_check st1 s (now t)).2 /\
  forall pos, exists line,
    active_line (parsed_lyrics st1) (ts_list st1) pos = ok line.
Proof.
  intros Hrun Hs Hsp Ht.
  pose proof (run_coherent ts initial st fs0 initial_coherent Hrun) as Hc.
  destruct (track_change_coherent _ _ _ _ _ Hc Ht) as (_ & Hts & _).
  split; [done|]. split.
  - unfold poll. rewrite Hs, Hsp, Ht.
    by destruct (position_check st1 s (now t)).
  - intros pos. rewrite Hts. apply active_line_returns.
Qed.

(** C9. In a turn with a Spotify session whose playback status is not
    playing, the position check emits nothing and changes no local
    variable, so the turn does what the fetch of lines 80 to 86 does
    and nothing more; when the track has not changed either, the turn
    emits nothing and leaves the text displayed, the document and the
    identity as they were. *)
Theorem paused_turn_keeps_state (st : tracker) (fs : files) (t : tick)
    (s : session) :
  current_session t = Some s -> is_spotify s = true ->
  playback_status s <> PLAYING ->
  (forall st', position_check st' s (now t) = ([], ok st')) /\
  poll st fs t = track_change st fs s (world t) /\
  (track_changed st s = false ->
   poll st fs t =
   {| emitted := []; cache := fs; requests := 0; after := ok st |}).
Proof.
  intros Hs Hsp Hp.
  assert (Hcheck : forall st', position_check st' s (now t) = ([], ok st'))
    by (intros; by apply position_check_paused).
  assert (Hpoll : poll st fs t = track_change st fs s (world t)).
  { unfold poll. rewrite Hs, Hsp.
    destruct (track_change st fs s (world t)) as [out c n [e|st1]];
      simpl; [done|].
    rewrite Hcheck. simpl. by rewrite app_nil_r. }
  repeat split; [done..|].
  intros Hn. rewrite Hpoll. unfold track_change. by rewrite Hn.
Qed.

(** C4. In a turn whose playback status is playing, with the position
    [p] of the timeline snapshot and the time [d] elapsed since the
    snapshot was taken (both in seconds), the position check looks the
    active line up at [p + d], and emits and records what the lookup
    returns. A snapshot of 30 seconds read 2 seconds later is looked up
    at 32 seconds exactly. *)
Theorem position_check_interpolates (st : tracker) (s : session)
    (now : Z) (p d : float) :
  playback_status s = PLAYING ->
  total_seconds (position s) = ok p ->
  total_seconds (now - last_updated_time s) = ok d ->
  position_check st s now =
    match active_line (parsed_lyrics st) (ts_list st) (fadd p d) with
    | inl e => ([], inl e)
    | inr new_lyric =>
        let '(out, st1) := show new_lyric st in (out, ok st1)
    end /\
  (position s = 30000000%Z -> (now - last_updated_time s = 2000000)%Z ->
   total_seconds 32000000 = ok (fadd p d)).
Proof.
  intros Hplay Hp Hd. split.
  - unfold position_check. rewrite Hplay, Z.eqb_refl, Hd, Hp. done.
  - intros Hp30 Hd2. rewrite Hp30 in Hp. rewrite Hd2 in Hd.
    vm_compute in Hp, Hd. injection Hp as <-. injection Hd as <-.
    reflexivity.
Qed.
End TrackerFacts.

(** ** The lyrics source and its caller *)

Section SourceClaims.
Context `{!Runtime}.

Lemma fetch_lyrics_failure (fs : files) (w : outside)
    (artist title album : pystr) (d : float) :
  fs !! cache_path artist title = None ->
  fetch_failure (lrclib w {| artist_name := artist; track_name := title;
                             album_name := album; duration := d |}) = true ->
  fetch_lyrics fs w artist title album d =
  {| fetched_text := None; fetched_files := fs; fetched_requests := 1 |}.
Proof.
  intros Hmiss Hfail. unfold fetch_lyrics. rewrite Hmiss.
  destruct (lrclib w _) as [|status [|[v|]]]; simpl in *; try done.
  destruct (status =? 200)%Z; simpl in *; [|done].
  by destruct (json_truthy v).
Qed.

(** C5. When the cache has no file for the track and the request fails
    (an exception such as a network error or a timeout, a status other
    than 200, or a body without a non-empty ["syncedLyrics"]),
    [fetch_lyrics] returns [None], an ordinary value and no exception,
    and leaves the cache as it was; the turn that called it installs
    the empty document and the empty index, and goes on: if the track
    plays, the same turn shows the sentinel. *)
Theorem fetch_failure_installs_empty_document (st : tracker) (fs : files)
    (s : session) (w : outside) (d : float) :
  fs !! cache_path (artist s) (title s) = None ->
  fetch_failure (lrclib w {| artist_name := artist s; track_name := title s;
                             album_name := album_title s;
                             duration := d |}) = true ->
  fetch_lyrics fs w (artist s) (title s) (album_title s) d =
    {| fetched_text := None; fetched_files := fs; fetched_requests := 1 |} /\
  (track_changed st s = true -> total_seconds (end_time s) = ok d ->
   track_change st fs s w =
     {| emitted := [SEARCHING]; cache := fs; requests := 1;
        after := ok {| last_id := song_id_of s; parsed_lyrics := [];
                       ts_list := []; curr_text := [];
                       is_fetching := false |} |} /\
   forall t p e,
     current_session t = Some s -> world t = w -> is_spotify s = true ->
     playback_status s = PLAYING ->
     total_seconds (position s) = ok p ->
     total_seconds (now t - last_updated_time s) = ok e ->
     poll st fs t =
       {| emitted := [SEARCHING; SENTINEL]; cache := fs; requests := 1;
          after := ok {| last_id := song_id_of s; parsed_lyrics := [];
                         ts_list := []; curr_text := SENTINEL;
                         is_fetching := false |} |}).
Proof.
  intros Hmiss Hfail.
  pose proof (fetch_lyrics_failure fs w _ _ _ d Hmiss Hfail) as Hf.
  split; [done|]. intros Hch Hd.
  assert (Htc : track_change st fs s w =
     {| emitted := [SEARCHING]; cache := fs; requests := 1;
        after := ok {| last_id := song_id_of s; parsed_lyrics := [];
                       ts_list := []; curr_text := [];
                       is_fetching := false |} |}).
  { unfold track_change. by rewrite Hch, Hd, Hf. }
  split; [done|].
  intros t p e Hs <- Hsp Hplay Hp He.
  unfold poll. rewrite Hs, Hsp, Htc. simpl.
  unfold position_check. rewrite Hplay, Z.eqb_refl, He, Hp. done.
Qed.


(** ** The document of every turn is a lyric document *)

Lemma parse_lrc_lyric_document (lrc_text : pystr) (doc : list entry) :
  parse_lrc lrc_text = ok doc -> lyric_document doc.
Proof.
  rewrite parse_lrc_entries_of.
  destruct (entries_of (matches_of lrc_text)) as [|es] eqn:E; simpl; [done|].
  intros [= <-]. pose proof (entries_of_parsed _ _ E) as Hp.
  apply strongly_sorted_timestamps; [by rewrite sorted_perm|].
  by apply sorted_sorted.
Qed.

Lemma lyric_document_nil : lyric_document [].
Proof. split; constructor. Qed.

Lemma track_change_document (st st1 : tracker) (fs : files) (s : session)
    (w : outside) :
  lyric_document (parsed_lyrics st) ->
  after (track_change st fs s w) = ok st1 ->
  lyric_document (parsed_lyrics st1).
Proof.
  intros Hd. unfold track_change.
  destruct (track_changed st s); simpl; [|by intros [= <-]].
  destruct (total_seconds (end_time s)) as [|d]; simpl; [done|].
  destruct (install _) as [|parsed] eqn:E; simpl; [done|].
  intros [= <-]. simpl. unfold install in E.
  destruct (fetched_text _) as [text|];
    [|injection E as <-; apply lyric_document_nil].
  destruct (truthy text); [by eapply parse_lrc_lyric_document|].
  injection E as <-. apply lyric_document_nil.
Qed.

Lemma poll_document (st st1 : tracker) (fs : files) (t : tick) :
  lyric_document (parsed_lyrics st) ->
  after (poll st fs t) = ok st1 -> lyric_document (parsed_lyrics st1).
Proof.
  intros Hd. unfold poll. destruct (current_session t) as [s|].
  - destruct (is_spotify s).
    + pose proof (track_change_document st) as Ht.
      destruct (after (track_change st fs s (world t))) as [e|st'] eqn:E;
        [by rewrite E|].
      pose proof (position_check_keeps st' st1 s (now t)) as Hk.
      destruct (position_check st' s (now t)) as [out st2]. simpl in *.
      intros ->. destruct (Hk eq_refl) as (_ & -> & _). by eapply Ht.
    + unfold wrong_source. destruct (show NOT_SPOTIFY st).
      intros [= <-]. apply lyric_document_nil.
  - unfold no_session. destruct (show WAITING st).
    intros [= <-]. apply lyric_document_nil.
Qed.

Lemma run_document (ts : list tick) (st st1 : tracker) (fs : files) :
  lyric_document (parsed_lyrics st) ->
  after (run st fs ts) = ok st1 -> lyric_document (parsed_lyrics st1).
Proof.
  revert st fs. induction ts as [|t ts IH]; intros st fs Hd; simpl.
  - by intros [= <-].
  - pose proof (poll_document st) as Hp.
    destruct (after (poll st fs t)) as [e|st'] eqn:E; [by rewrite E|].
    simpl. apply IH. by eapply Hp.
Qed.

Lemma total_seconds_number (us : Z) (f : float) :
  total_seconds us = ok f -> is_nan f = false /\ is_inf f = false.
Proof.
  unfold total_seconds, int_true_div.
  destruct (is_inf (nearest_ratio us 1000000)) eqn:E; [done|].
  intros [= <-]. split; [apply nearest_ratio_not_nan|done].
Qed.

(** In every turn the loop reaches, the position check returns what the
    linear scan of the installed document returns at the estimated
    position. *)
Lemma reachable_lookup_is_linear_scan (fs0 : files) (ts : list tick)
    (st st1 : tracker) (t : tick) (s : session) (p d : float) :
  after (run initial fs0 ts) = ok st ->
  after (track_change st (cache (run initial fs0 ts)) s (world t)) = ok st1 ->
  total_seconds (position s) = ok p ->
  total_seconds (now t - last_updated_time s) = ok d ->
  active_line (parsed_lyrics st1) (ts_list st1) (fadd p d) =
  ok (linear_scan (parsed_lyrics st1) (fadd p d)).
Proof.
  intros Hrun Ht Hp Hd.
  pose proof (run_coherent ts initial st fs0 initial_coherent Hrun) as Hc.
  destruct (track_change_coherent _ _ _ _ _ Hc Ht) as (_ & -> & _).
  apply active_line_linear_scan.
  - eapply track_change_document; [|exact Ht].
    eapply run_document; [|exact Hrun]. apply lyric_document_nil.
  - apply total_seconds_number in Hp as [? ?], Hd as [? ?].
    by apply fadd_not_nan.
Qed.

(** Two turns in a row on the same title and artist fetch once. *)
Lemma same_track_fetches_once (st st1 : tracker) (fs : files)
    (s s' : session) (w : outside) :
  coherent st -> after (track_change st fs s w) = ok st1 ->
  title s' = title s -> artist s' = artist s ->
  track_changed st1 s' = false.
Proof.
  intros Hc Ht Hti Har.
  destruct (track_change_coherent _ _ _ _ _ Hc Ht) as (Hf & _ & Hl).
  unfold track_changed, song_id_of in *. rewrite Hl, Hti, Har.
  replace (str_eqb _ _) with true; [done|].
  symmetry. by apply str_eqb_eq.
Qed.

(** A turn on another [song_id] calls [fetch_lyrics] once: it emits
    ["Searching..."] once and sends at most one request. *)
Lemma changed_track_fetches_once (st : tracker) (fs : files) (s : session)
    (w : outside) :
  coherent st -> song_id_of s <> last_id st ->
  track_changed st s = true /\
  emitted (track_change st fs s w) = [SEARCHING] /\
  (requests (track_change st fs s w) <= 1)%nat.
Proof.
  intros [Hf _] Hne. apply str_eqb_neq in Hne.
  assert (Hc : track_changed st s = true).
  { unfold track_changed. by rewrite Hne, Hf. }
  split; [done|]. unfold track_change. rewrite Hc.
  destruct (total_seconds (end_time s)) as [|d]; simpl; [auto|].
  split; [done|]. unfold fetch_lyrics.
  destruct (fs !! cache_path (artist s) (title s)); simpl; [lia|].
  by destruct (match lrclib w _ with HttpError => _ | _ => _ end).
Qed.

Lemma parse_lrc_no_match (lrc_text : pystr) :
  matches_of lrc_text = [] -> parse_lrc lrc_text = ok [].
Proof. intros Hm. by rewrite parse_lrc_entries_of, Hm. Qed.
End SourceClaims.

(** ** What a matching line comes to, and the exceptions of a turn *)

Section MatchedLines.
Context `{!Runtime}.





Lemma entry_of_match_no_index_error (g : pystr * pystr * pystr) :
  entry_of_match g <> raise IndexError.
Proof.
  destruct g as [[g1 g2] g3]. unfold entry_of_match.
  assert (Hi : (exists m, py_int g1 = ok m) \/ py_int g1 = raise ValueError).
  { unfold py_int. destruct (_ && _); [by right|].
    destruct g1; [by right|]. destruct (digits_value _ _); eauto. }
  assert (Hf : (exists s, py_float g2 = ok s) \/ py_float g2 = raise ValueError).
  { unfold py_float. destruct (span_digits g2) as [[|i ip] [|c fp]]; eauto.
    destruct (c =? chr ".")%N; eauto.
    destruct fp; eauto. destruct (digits_value _ _); eauto. }
  destruct Hi as [[m ->]| ->]; cbn [rbind]; [|done].
  destruct Hf as [[s ->]| ->]; cbn [rbind]; [|done].
  unfold float_of_int. by destruct (is_inf _).
Qed.

Lemma parse_lrc_no_index_error (lrc_text : pystr) :
  parse_lrc lrc_text <> raise IndexError.
Proof.
  rewrite parse_lrc_entries_of.
  induction (matches_of lrc_text) as [|g gs IH]; simpl; [done|].
  pose proof (entry_of_match_no_index_error g) as Hg.
  destruct (entry_of_match g) as [e|]; simpl; [congruence|].
  destruct (entries_of gs); simpl in *; [congruence|done].
Qed.

(** No turn of the loop ends with an [IndexError]: the index found in
    [ts_list] is always an index of [parsed_lyrics]. *)
Lemma reachable_poll_no_index_error (fs0 : files) (ts : list tick)
    (st : tracker) (t : tick) :
  after (run initial fs0 ts) = ok st ->
  after (poll st (cache (run initial fs0 ts)) t) <> raise IndexError.
Proof.
  intros Hrun.
  pose proof (run_coherent ts initial st fs0 initial_coherent Hrun) as Hc.
  unfold poll. destruct (current_session t) as [s|].
  - destruct (is_spotify s).
    + pose proof (track_change_coherent st) as Ht.
      destruct (after (track_change st _ s (world t))) as [e|st1] eqn:E.
      * rewrite E. unfold track_change in E.
        destruct (track_changed st s); simpl in E; [|done].
        unfold total_seconds, int_true_div in E.
        destruct (is_inf _); simpl in E; [congruence|].
        unfold install in E.
        destruct (fetched_text _) as [text|]; simpl in E; [|done].
        destruct (truthy text); simpl in E; [|done].
        pose proof (parse_lrc_no_index_error text).
        destruct (parse_lrc text); simpl in E; [congruence|done].
      * destruct (Ht st1 _ s (world t) Hc E) as (_ & Hts & _).
        unfold position_check.
        destruct (playback_status s =? PLAYING)%Z; simpl; [|done].
        unfold total_seconds, int_true_div.
        destruct (is_inf _); simpl; [done|].
        destruct (is_inf _); simpl; [done|].
        rewrite Hts.
        destruct (active_line_returns (parsed_lyrics st1)
          (fadd (nearest_ratio (position s) 1000000)
                (nearest_ratio (now t - last_updated_time s) 1000000)))
          as [line ->].
        by destruct (show line st1).
    + unfold wrong_source. by destruct (show NOT_SPOTIFY st).
  - unfold no_session. by destruct (show WAITING st).
Qed.
End MatchedLines.

(** * Further properties *)

(** ** The cache and the document *)

Lemma write_text_head (s : pystr) :
  match write_text s with [] => True | c :: _ => c <> LF end.
Proof.
  destruct s as [|c s]; simpl; [done|].
  destruct (N.eqb_spec c LF); [done|done].
Qed.

(** Written and read back, a text has each of its carriage returns
    replaced by a line feed, and nothing else changed. *)
Lemma read_write_text_replace (s : pystr) :
  read_text (write_text s) = replace_char CR LF s.
Proof.
  induction s as [|c s IH]; [done|]. simpl.
  destruct (N.eqb_spec c LF) as [->|Hlf]; simpl.
  - by rewrite IH.
  - destruct (N.eqb_spec c CR) as [->|Hcr]; [|by rewrite IH].
    f_equal. rewrite <- IH. pose proof (write_text_head s) as Hh.
    destruct (write_text s) as [|c' r]; [done|].
    by destruct (N.eqb_spec c' LF).
Qed.

Section RoundTrip.
Context `{!Runtime}.

Lemma matches_of_replace_from (s cur : pystr) :
  omap match_line (splitlines_from cur (replace_char CR LF s)) =
  omap match_line (splitlines_from cur s).
Proof.
  revert cur. induction s as [s IH] using (induction_ltof1 _ length).
  unfold ltof in IH. intros cur. destruct s as [|c rest]; [done|].
  change (replace_char CR LF (c :: rest))
    with ((if (c =? CR)%N then LF else c) :: replace_char CR LF rest).
  destruct (N.eqb_spec c CR) as [->|Hcr].
  - cbn [splitlines_from]. change (is_linebreak LF) with true.
    change (is_linebreak CR) with true. cbn iota.
    change ((LF =? CR)%N) with false. cbn [andb].
    assert (Hr : forall X Y : list pystr,
      omap match_line X = omap match_line Y ->
      omap match_line (rev cur :: X) = omap match_line (rev cur :: Y)).
    { intros X Y HXY. cbn [omap list_omap]. by rewrite HXY. }
    destruct rest as [|c' rest'].
    + done.
    + change (replace_char CR LF (c' :: rest'))
        with ((if (c' =? CR)%N then LF else c') :: replace_char CR LF rest').
      cbn iota. rewrite N.eqb_refl. cbn [andb].
      destruct (N.eqb_spec c' LF) as [->|Hlf].
      * apply Hr. change ((LF =? CR)%N) with false. cbn iota.
        cbn [splitlines_from]. change (is_linebreak LF) with true. cbn iota.
        change ((LF =? CR)%N) with false. cbn [andb].
        transitivity (omap match_line (splitlines_from [] (replace_char CR LF rest'))).
        { by destruct (replace_char CR LF rest'). }
        apply IH. simpl. lia.
      * apply Hr.
        change ((if (c' =? CR)%N then LF else c') :: replace_char CR LF rest')
          with (replace_char CR LF (c' :: rest')).
        transitivity (omap match_line
          (splitlines_from [] (replace_char CR LF (c' :: rest')))).
        { by destruct (replace_char CR LF (c' :: rest')). }
        apply IH. simpl. lia.
  - cbn [splitlines_from]. destruct (is_linebreak c) eqn:E.
    + assert (Hb : forall c2, ((c =? CR)%N && c2)%bool = false).
      { intros c2. by destruct (N.eqb_spec c CR). }
      transitivity (omap match_line
        (rev cur :: splitlines_from [] (replace_char CR LF rest))).
      { destruct (replace_char CR LF rest); [done|]. by rewrite Hb. }
      transitivity (omap match_line (rev cur :: splitlines_from [] rest)).
      { cbn [omap list_omap]. rewrite IH; [done|simpl; lia]. }
      destruct rest; [done|]. by rewrite Hb.
    + apply IH. simpl. lia.
Qed.

Lemma matches_of_round_trip (s : pystr) :
  matches_of (read_text (write_text s)) = matches_of s.
Proof.
  rewrite read_write_text_replace. apply matches_of_replace_from.
Qed.

Lemma parse_lrc_round_trip (s : pystr) :
  parse_lrc (read_text (write_text s)) = parse_lrc s.
Proof. by rewrite !parse_lrc_entries_of, matches_of_round_trip. Qed.

Lemma truthy_round_trip (s : pystr) :
  truthy (read_text (write_text s)) = truthy s.
Proof. rewrite read_write_text_replace. by destruct s. Qed.

(** X5. The cache changes the carriage returns of a text, but not what
    the text parses to: the text read back from the file where it was
    written has the matching lines of the text, in order, so [parse_lrc]
    returns the same document (or raises the same exception) on both, and
    line 84 installs the same document whether the lyrics come from the
    network or from the cache. *)
Theorem cache_round_trip_keeps_document (lyrics : pystr) :
  matches_of (read_text (write_text lyrics)) = matches_of lyrics /\
  parse_lrc (read_text (write_text lyrics)) = parse_lrc lyrics /\
  install (Some (read_text (write_text lyrics))) = install (Some lyrics).
Proof.
  split; [apply matches_of_round_trip|]. split; [apply parse_lrc_round_trip|].
  unfold install. by rewrite truthy_round_trip, parse_lrc_round_trip.
Qed.
End RoundTrip.

(** ** [strip] *)

Lemma lstrip_head (s : pystr) (c : N) :
  head (lstrip s) = Some c -> is_space c = false.
Proof.
  induction s as [|x s IH]; simpl; [done|].
  destruct (is_space x) eqn:E; [done|]. simpl. by intros [= <-].
Qed.

Lemma lstrip_before (a b : pystr) (c : N) :
  is_space c = false -> lstrip (a ++ c :: b) = lstrip a ++ c :: b.
Proof.
  intros Hc. induction a as [|x a IH]; simpl.
  - by rewrite Hc.
  - by destruct (is_space x).
Qed.

Lemma last_rev_head {A} (l : list A) : last (rev l) = head l.
Proof. destruct l as [|x l]; [done|]. simpl. apply last_snoc. Qed.

Lemma rstrip_last (s : pystr) (c : N) :
  last (rstrip s) = Some c -> is_space c = false.
Proof.
  unfold rstrip. rewrite last_rev_head. apply lstrip_head.
Qed.

Lemma rstrip_head (s : pystr) (c : N) :
  is_space c = false -> rstrip (c :: s) = c :: rstrip s.
Proof.
  intros Hc. unfold rstrip. simpl. rewrite lstrip_before by done.
  by rewrite rev_app_distr.
Qed.

Lemma strip_trimmed (s : pystr) : trimmed (strip s).
Proof.
  unfold strip. split; [|apply rstrip_last].
  pose proof (lstrip_head s) as Hh.
  destruct (lstrip s) as [|c r]; [done|].
  rewrite rstrip_head by (by apply Hh). simpl. intros ? [= <-]. by apply Hh.
Qed.

(** ** The document *)

Section ParseProperties.
Context `{!Runtime}.

Lemma entries_of_trimmed gs (es : list entry) :
  entries_of gs = ok es -> Forall (fun e => trimmed e.2) es.
Proof.
  revert es. induction gs as [|g gs IH]; intros es; simpl.
  - intros [= <-]. constructor.
  - destruct (entry_of_match g) as [|e] eqn:E; simpl; [done|].
    destruct (entries_of gs) as [|es']; simpl; [done|].
    intros [= <-]. constructor; [|by apply IH].
    destruct g as [[g1 g2] g3].
    apply entry_of_match_inv in E as (m & s & m60 & _ & _ & _ & ->).
    apply strip_trimmed.
Qed.

(** X1. The pattern of line 40, matched at the start of a line, succeeds
    exactly on the lines that are an opening bracket, one or more decimal
    digits, a colon, one or more digits, a dot, one or more digits and a
    closing bracket, followed by anything; group 1 is the first run of
    digits, group 2 the two other runs with their dot, group 3 what
    follows the bracket up to the first line feed or the end. *)
Theorem pattern_matches_timed_lines (line g1 g2 g3 : pystr) :
  match_line line = Some (g1, g2, g3) <->
  exists d2 d3 rest,
    line = chr "[" :: g1 ++ chr ":" :: d2 ++ chr "." :: d3
             ++ chr "]" :: g3 ++ rest /\
    digits g1 /\ digits d2 /\ digits d3 /\
    g2 = d2 ++ chr "." :: d3 /\
    Forall (fun c => c <> LF) g3 /\
    (rest = [] \/ exists rest', rest = LF :: rest').
Proof. apply match_line_spec. Qed.


(** X3. In a document that [parse_lrc] returns, no timestamp is negative
    or not a number (each is zero, positive or plus infinity), and no text
    begins or ends with a space character. *)
Theorem parsed_document_is_clean (lrc_text : pystr) (doc : list entry) :
  parse_lrc lrc_text = ok doc ->
  Forall (fun e => nonneg e.1 = true /\ is_nan e.1 = false /\ trimmed e.2) doc.
Proof.
  rewrite parse_lrc_entries_of.
  destruct (entries_of (matches_of lrc_text)) as [|es] eqn:E; simpl; [done|].
  intros [= <-]. pose proof (entries_of_parsed _ _ E) as Hp.
  pose proof (entries_of_trimmed _ _ E) as Ht.
  rewrite sorted_perm. rewrite Forall_forall in Hp, Ht |- *.
  intros e He. split; [by apply Hp|]. split; [|by apply Ht].
  apply nonneg_not_nan. by apply Hp.
Qed.

(** X16. However the loop got where it is, a turn never ends with an
    [IndexError]: the index that the search finds in [ts_list] is always
    an index of [parsed_lyrics], and no other step of a turn raises
    it. *)
Theorem turn_never_raises_index_error (fs0 : files) (ts : list tick)
    (st : tracker) (t : tick) :
  after (run initial fs0 ts) = ok st ->
  after (poll st (cache (run initial fs0 ts)) t) <> raise IndexError.
Proof. apply reachable_poll_no_index_error. Qed.

(** X17. In every turn the loop reaches, the line that the position check
    looks up by binary search is the line that a scan of the whole
    installed document finds: the text of the last entry whose timestamp
    is not after the estimated position, or the sentinel. *)
Theorem reachable_lookup_is_scan (fs0 : files) (ts : list tick)
    (st st1 : tracker) (t : tick) (s : session) (p d : float) :
  after (run initial fs0 ts) = ok st ->
  after (track_change st (cache (run initial fs0 ts)) s (world t)) = ok st1 ->
  total_seconds (position s) = ok p ->
  total_seconds (now t - last_updated_time s) = ok d ->
  active_line (parsed_lyrics st1) (ts_list st1) (fadd p d) =
  ok (linear_scan (parsed_lyrics st1) (fadd p d)).
Proof. apply reachable_lookup_is_linear_scan. Qed.
End ParseProperties.

(** ** The lookup on any document, and as the position grows *)

Lemma fleb_fltb_trans (x y v : float) :
  fleb x y = true -> fltb y v = true -> fltb x v = true.
Proof. intros. float_order. Qed.

(** X18. On a lyric document the index found by the search does not
    decrease when the position grows: the displayed line never steps back
    while the estimated position advances. *)
Theorem lookup_index_grows_with_position (doc : list entry)
    (pos1 pos2 : float) (i j : nat) :
  lyric_document doc -> fleb pos1 pos2 = true ->
  bisect_right (map fst doc) pos1 = ok i ->
  bisect_right (map fst doc) pos2 = ok j ->
  (i <= j)%nat.
Proof.
  intros Hdoc Hle Hi Hj.
  apply fleb_not_nan in Hle as Hn. destruct Hn as [Hn1 Hn2].
  pose proof (lyric_document_ascending doc Hdoc) as Hasc.
  destruct (bisect_right_splits _ pos1 Hasc Hn1) as (i' & Hi' & Hli & [Hlo1 _]).
  destruct (bisect_right_splits _ pos2 Hasc Hn2) as (j' & Hj' & Hlj & [_ Hhi2]).
  assert (i' = i) by congruence. assert (j' = j) by congruence. subst.
  destruct (decide (i <= j)%nat) as [|Hlt]; [done|]. exfalso.
  destruct (lookup_lt_is_Some_2 (map fst doc) j ltac:(lia)) as [v Hv].
  pose proof (Hlo1 j v Hv ltac:(lia)) as H1.
  pose proof (Hhi2 j v Hv ltac:(lia)) as H2.
  rewrite (fleb_fltb_trans pos1 pos2 v Hle H2) in H1. done.
Qed.

(** X19. With [ts_list] the timestamps of [parsed_lyrics], the lookup of
    lines 92 and 93 returns for every document, sorted or not, and every
    position, a number or not: it raises nothing, and what it returns is
    the sentinel or the text of an entry of the document. *)
Theorem lookup_returns_sentinel_or_entry (doc : list entry) (pos : float) :
  exists line, active_line doc (map fst doc) pos = ok line /\
    (line = SENTINEL \/ exists e, e ∈ doc /\ line = e.2).
Proof.
  unfold active_line.
  destruct (bisect_right_returns (map fst doc) pos) as (idx & -> & Hlen).
  rewrite length_map in Hlen. simpl.
  destruct (0 <? idx)%nat eqn:E; [|eauto].
  apply Nat.ltb_lt in E.
  destruct (lookup_lt_is_Some_2 doc (idx - 1)%nat ltac:(lia)) as [e He].
  rewrite He. eexists. split; [done|]. right. exists e. split; [|done].
  eapply list_elem_of_lookup_2; eauto.
Qed.

(** X20. The estimated position of lines 90 and 91 is always a number:
    the two durations, when [total_seconds] returns them, are finite, and
    so is never the case that their sum is not a number. *)
Theorem estimated_position_is_a_number (position_us elapsed_us : Z)
    (p d : float) :
  total_seconds position_us = ok p -> total_seconds elapsed_us = ok d ->
  is_inf p = false /\ is_inf d = false /\ is_nan (fadd p d) = false.
Proof.
  intros [Hp1 Hp2]%total_seconds_number [Hd1 Hd2]%total_seconds_number.
  split; [done|]. split; [done|]. by apply fadd_not_nan.
Qed.

Section LineOrder.
Context `{!Runtime}.

Lemma entries_of_perm gs gs' :
  gs' ≡ₚ gs -> forall es : list entry, entries_of gs = ok es ->
  exists es', entries_of gs' = ok es' /\ es' ≡ₚ es.
Proof.
  induction 1 as [|g gs' gs Hp IH|g1 g2 gs|gs1 gs2 gs3 H12 IH12 H23 IH23];
    intros es; simpl.
  - intros [= <-]. eauto.
  - destruct (entry_of_match g) as [|e]; simpl; [done|].
    destruct (entries_of gs) as [|es0]; simpl; [done|]. intros [= <-].
    destruct (IH es0 eq_refl) as (es' & -> & Hes'). simpl.
    eexists. split; [done|]. by f_equiv.
  - destruct (entry_of_match g1) as [|e1]; simpl; [done|].
    destruct (entry_of_match g2) as [|e2]; simpl; [done|].
    destruct (entries_of gs) as [|es0]; simpl; [done|]. intros [= <-].
    eexists. split; [done|]. apply Permutation_swap.
  - intros Hes. destruct (IH23 es Hes) as (es2 & He2 & Hp2).
    destruct (IH12 es2 He2) as (es1 & He1 & Hp1).
    exists es1. split; [done|]. by etrans.
Qed.

(** X4. The document does not depend on the order of the lines: two
    texts whose matching lines are the same up to their order, with
    whatever lines that do not match between them, are parsed to the same
    document. *)
Theorem parse_lrc_ignores_line_order (text1 text2 : pystr)
    (doc : list entry) :
  parse_lrc text1 = ok doc ->
  omap match_line (splitlines text2) ≡ₚ omap match_line (splitlines text1) ->
  parse_lrc text2 = ok doc.
Proof.
  rewrite !parse_lrc_entries_of. unfold matches_of.
  destruct (entries_of (omap match_line (splitlines text1))) as [|es] eqn:E;
    simpl; [done|].
  intros [= <-] Hp.
  destruct (entries_of_perm _ _ Hp es E) as (es' & -> & Hes'). simpl.
  f_equal. apply sorted_unique.
  - by eapply entries_of_parsed.
  - by rewrite sorted_perm.
  - apply sorted_sorted. rewrite Hes'. by eapply entries_of_parsed.
Qed.
End LineOrder.

(** ** The cache *)

Section SourceProperties.
Context `{!Runtime}.

Lemma store_files (fs : files) (w : outside) (filepath : pystr)
    (lyrics : json_value) (p : pystr) :
  p <> filepath -> (store fs w filepath lyrics).2 !! p = fs !! p.
Proof.
  intros Hne. unfold store. destruct (can_create w filepath); [|done].
  destruct lyrics as [|s|]; simpl; try by rewrite lookup_insert_ne.
  destruct (encodable s); simpl; by rewrite lookup_insert_ne.
Qed.

Lemma fetch_lyrics_other_files (fs : files) (w : outside)
    (artist title album : pystr) (d : float) (p : pystr) :
  p <> cache_path artist title ->
  fetched_files (fetch_lyrics fs w artist title album d) !! p = fs !! p.
Proof.
  intros Hne. unfold fetch_lyrics.
  destruct (fs !! cache_path artist title); [done|].
  destruct (lrclib w _) as [|status [|[v|]]]; simpl; try done.
  destruct ((status =? 200)%Z && json_truthy v); simpl; [|done].
  pose proof (store_files fs w (cache_path artist title) v p Hne) as Hs.
  by destruct (store fs w (cache_path artist title) v).
Qed.

Lemma fetch_lyrics_keeps (fs : files) (w : outside)
    (artist title album : pystr) (d : float) (p content : pystr) :
  fs !! p = Some content ->
  fetched_files (fetch_lyrics fs w artist title album d) !! p = Some content.
Proof.
  intros Hp. destruct (decide (p = cache_path artist title)) as [->|Hne].
  - by rewrite (fetch_lyrics_hit fs w artist title album d content Hp).
  - by rewrite fetch_lyrics_other_files.
Qed.

Lemma fetch_lyrics_requests (fs : files) (w : outside)
    (artist title album : pystr) (d : float) :
  (fetched_requests (fetch_lyrics fs w artist title album d) <= 1)%nat.
Proof.
  unfold fetch_lyrics. destruct (fs !! _); simpl; [lia|].
  by destruct (match lrclib w _ with HttpError => _ | _ => _ end).
Qed.

(** X6. [fetch_lyrics] never changes or removes a file of the cache: a
    file that exists keeps its content, and no path but the cache path of
    the artist and title is touched (there a file is made only when none
    existed). *)
Theorem fetch_lyrics_keeps_cache_files (fs : files) (w : outside)
    (artist title album : pystr) (d : float) :
  (forall p content, fs !! p = Some content ->
     fetched_files (fetch_lyrics fs w artist title album d) !! p
     = Some content) /\
  (forall p, p <> cache_path artist title ->
     fetched_files (fetch_lyrics fs w artist title album d) !! p = fs !! p).
Proof.
  split.
  - intros p content. apply fetch_lyrics_keeps.
  - intros p. apply fetch_lyrics_other_files.
Qed.

(** X7. The cache file of a track is named after the text [artist_title]
    with its spaces made underscores and its letters made small: two
    tracks for which that name is the same share one file, so after the
    lyrics of the first were fetched and stored, the second is answered
    from the cache, without a request, with the lyrics of the first. *)
Theorem tracks_with_one_key_share_lyrics (fs : files) (w : outside)
    (artist title album artist' title' : pystr) (d : float) (text : pystr) :
  str_lower (replace_char (chr " ") (chr "_") (artist ++ py "_" ++ title)) =
  str_lower (replace_char (chr " ") (chr "_") (artist' ++ py "_" ++ title')) ->
  fetched_text (fetch_lyrics fs w artist title album d) = Some text ->
  fetched_requests (fetch_lyrics fs w artist title album d) = 1%nat ->
  forall (w' : outside) (album' : pystr) (d' : float),
    fetch_lyrics (fetched_files (fetch_lyrics fs w artist title album d))
      w' artist' title' album' d' =
    {| fetched_text := Some (read_text (write_text text));
       fetched_files := fetched_files (fetch_lyrics fs w artist title album d);
       fetched_requests := 0 |}.
Proof.
  intros Hkey Ht Hr w' album' d'.
  assert (Hp : cache_path artist' title' = cache_path artist title).
  { unfold cache_path. by rewrite Hkey. }
  pose proof (fetch_lyrics_stored fs w artist title album d text Ht Hr) as Hs.
  simpl in Hs. rewrite Hs. apply fetch_lyrics_hit.
  rewrite Hp. apply lookup_insert_eq.
Qed.

(** X8. When the answer has lyrics but writing them fails after the file
    was opened (the lyrics are not a string, or have a character that
    UTF-8 cannot encode), [fetch_lyrics] returns [None] and leaves an
    empty file; every later call for the track finds that file, sends no
    request and returns the empty text, for which line 84 installs the
    empty document. *)
Theorem failed_write_leaves_empty_cache_file (fs : files) (w : outside)
    (artist title album : pystr) (d : float) (lyrics : json_value) :
  fs !! cache_path artist title = None ->
  lrclib w {| artist_name := artist; track_name := title;
              album_name := album; duration := d |}
    = HttpResponse 200 (BodyObject (Some lyrics)) ->
  json_truthy lyrics = true ->
  can_create w (cache_path artist title) = true ->
  match lyrics with JString s => encodable s = false | _ => True end ->
  fetch_lyrics fs w artist title album d =
    {| fetched_text := None;
       fetched_files := <[cache_path artist title := []]> fs;
       fetched_requests := 1 |} /\
  forall (w' : outside) (album' : pystr) (d' : float),
    fetch_lyrics (<[cache_path artist title := []]> fs) w' artist title
      album' d' =
    {| fetched_text := Some [];
       fetched_files := <[cache_path artist title := []]> fs;
       fetched_requests := 0 |} /\
    install (Some []) = ok [].
Proof.
  intros Hmiss Hresp Htruthy Hcreate Hbad. split.
  - unfold fetch_lyrics. rewrite Hmiss, Hresp. simpl. rewrite Htruthy.
    unfold store. rewrite Hcreate.
    destruct lyrics as [|s|]; simpl in *; try done. by rewrite Hbad.
  - intros w' album' d'. split; [|done].
    rewrite (fetch_lyrics_hit _ w' artist title album' d' []); [done|].
    apply lookup_insert_eq.
Qed.
End SourceProperties.

(** ** Runs of the loop *)

Lemma searches_app (o1 o2 : list pystr) :
  searches (o1 ++ o2) = (searches o1 + searches o2)%nat.
Proof. unfold searches. by rewrite filter_app, length_app. Qed.

Section LoopProperties.
Context `{!Runtime}.

Lemma track_change_announced (st : tracker) (fs : files) (s : session)
    (w : outside) :
  (requests (track_change st fs s w)
   <= searches (emitted (track_change st fs s w)))%nat.
Proof.
  unfold track_change. destruct (track_changed st s); simpl; [|lia].
  destruct (total_seconds (end_time s)) as [|d]; simpl.
  - unfold searches. lia.
  - pose proof (fetch_lyrics_requests fs w (artist s) (title s)
                  (album_title s) d).
    unfold searches. rewrite filter_cons_True by done. simpl. lia.
Qed.

Lemma poll_announced (st : tracker) (fs : files) (t : tick) :
  (requests (poll st fs t) <= searches (emitted (poll st fs t)))%nat.
Proof.
  unfold poll. destruct (current_session t) as [s|].
  - destruct (is_spotify s).
    + pose proof (track_change_announced st fs s (world t)) as Ht.
      destruct (after (track_change st fs s (world t))) as [e|st1]; [done|].
      destruct (position_check st1 s (now t)) as [out st2]. simpl.
      rewrite searches_app. lia.
    + destruct (wrong_source st). simpl. lia.
  - destruct (no_session st). simpl. lia.
Qed.

(** X9. No request goes out unannounced: in every run of the loop, from
    any state, the requests sent to the lyrics service are at most as many
    as the ["Searching..."] notifications emitted. *)
Theorem requests_are_announced (st : tracker) (fs : files) (ts : list tick) :
  (requests (run st fs ts) <= searches (emitted (run st fs ts)))%nat.
Proof.
  revert st fs. induction ts as [|t ts IH]; intros st fs; simpl; [lia|].
  pose proof (poll_announced st fs t) as Hp.
  destruct (after (poll st fs t)) as [e|st1]; [done|]. simpl.
  rewrite searches_app. specialize (IH st1 (cache (poll st fs t))). lia.
Qed.

Lemma poll_keeps_files (st : tracker) (fs : files) (t : tick)
    (p content : pystr) :
  fs !! p = Some content -> cache (poll st fs t) !! p = Some content.
Proof.
  intros Hp. unfold poll. destruct (current_session t) as [s|].
  - destruct (is_spotify s).
    + assert (Ht : cache (track_change st fs s (world t)) !! p = Some content).
      { unfold track_change. destruct (track_changed st s); simpl; [|done].
        destruct (total_seconds (end_time s)); simpl; [done|].
        by apply fetch_lyrics_keeps. }
      destruct (after (track_change st fs s (world t))); [done|].
      by destruct (position_check _ s (now t)).
    + by destruct (wrong_source st).
  - by destruct (no_session st).
Qed.

(** X10. A file of the cache is written once and never again: whatever
    the loop sees, a file that exists before a run has the same content
    after it. *)
Theorem run_keeps_cache_files (st : tracker) (fs : files) (ts : list tick)
    (p content : pystr) :
  fs !! p = Some content -> cache (run st fs ts) !! p = Some content.
Proof.
  revert st fs. induction ts as [|t ts IH]; intros st fs Hp; simpl; [done|].
  pose proof (poll_keeps_files st fs t p content Hp) as Ht.
  destruct (after (poll st fs t)) as [e|st1]; [done|]. simpl. by apply IH.
Qed.

(** X11. The gate [not is_fetching] of line 80 is open in every state the
    loop reaches: the flag is set and cleared within one turn, so between
    turns it is [False], and a turn with a Spotify session fetches exactly
    when its [song_id] is not [last_id]. *)
Theorem fetching_flag_is_clear_between_turns (fs0 : files) (ts : list tick)
    (st : tracker) :
  after (run initial fs0 ts) = ok st ->
  is_fetching st = false /\
  forall s, track_changed st s = negb (str_eqb (song_id_of s) (last_id st)).
Proof.
  intros Hrun.
  destruct (run_coherent ts initial st fs0 initial_coherent Hrun) as [Hf _].
  split; [done|]. intros s. unfold track_changed. rewrite Hf.
  apply andb_true_r.
Qed.

Lemma away_poll (none : bool) (st : tracker) (fs : files) (t : tick) :
  away none t ->
  poll st fs t =
    {| emitted := (show (if none then WAITING else NOT_SPOTIFY) st).1;
       cache := fs; requests := 0;
       after := ok {| last_id := []; parsed_lyrics := [];
                      ts_list := if none then [] else ts_list st;
                      curr_text := if none then WAITING else NOT_SPOTIFY;
                      is_fetching := is_fetching st |} |}.
Proof.
  unfold poll. destruct none; simpl.
  - intros ->. unfold no_session.
    pose proof (show_spec WAITING st) as Hs.
    destruct (show WAITING st) as [out st1]. simpl.
    destruct Hs as (-> & _ & _ & _ & -> & _). done.
  - intros (s & -> & ->). unfold wrong_source.
    pose proof (show_spec NOT_SPOTIFY st) as Hs.
    destruct (show NOT_SPOTIFY st) as [out st1]. simpl.
    destruct Hs as (-> & _ & _ & -> & -> & _). done.
Qed.

(** X13. Coming back to Spotify always resolves the track anew: a turn
    without a session, or with the session of another application, empties
    the identity and the document, and the next turn with a Spotify
    session, whatever its track, emits ["Searching..."] and calls
    [fetch_lyrics]. *)
Theorem return_to_spotify_fetches (fs0 : files) (ts : list tick)
    (st st1 : tracker) (none : bool) (t : tick) :
  after (run initial fs0 ts) = ok st ->
  away none t ->
  after (poll st (cache (run initial fs0 ts)) t) = ok st1 ->
  last_id st1 = [] /\ parsed_lyrics st1 = [] /\
  forall s fs w,
    track_changed st1 s = true /\
    emitted (track_change st1 fs s w) = [SEARCHING].
Proof.
  intros Hrun Haway Hpoll.
  destruct (run_coherent ts initial st fs0 initial_coherent Hrun) as [Hf _].
  rewrite (away_poll none st _ t Haway) in Hpoll. simpl in Hpoll.
  injection Hpoll as <-. simpl. split; [done|]. split; [done|].
  intros s fs w.
  assert (Hc : track_changed
    {| last_id := []; parsed_lyrics := [];
       ts_list := if none then [] else ts_list st;
       curr_text := if none then WAITING else NOT_SPOTIFY;
       is_fetching := is_fetching st |} s = true).
  { unfold track_changed. simpl. rewrite Hf.
    replace (str_eqb (song_id_of s) []) with false; [done|].
    symmetry. apply str_eqb_neq. apply song_id_not_empty. }
  split; [done|]. unfold track_change. rewrite Hc.
  by destruct (total_seconds (end_time s)).
Qed.

(** X14. A placeholder is emitted once, however long its cause lasts:
    after a turn without a session, the turns that follow without a
    session emit nothing, send nothing and change nothing; and the same
    holds for turns with the session of another application. *)
Theorem placeholder_is_emitted_once (none : bool) (st : tracker) (fs : files)
    (t : tick) (ts : list tick) :
  away none t -> Forall (away none) ts ->
  exists st1,
    after (poll st fs t) = ok st1 /\
    run st1 (cache (poll st fs t)) ts =
      {| emitted := []; cache := fs; requests := 0; after := ok st1 |}.
Proof.
  intros Haway Hall. rewrite (away_poll none st fs t Haway). simpl.
  eexists. split; [done|].
  induction Hall as [|t' ts Ht' Hall IH]; simpl; [done|].
  rewrite (away_poll none _ fs t' Ht'). simpl.
  assert (Hshow :
    show (if none then WAITING else NOT_SPOTIFY)
      {| last_id := []; parsed_lyrics := [];
         ts_list := if none then [] else ts_list st;
         curr_text := if none then WAITING else NOT_SPOTIFY;
         is_fetching := is_fetching st |} =
    ([], {| last_id := []; parsed_lyrics := [];
            ts_list := if none then [] else ts_list st;
            curr_text := if none then WAITING else NOT_SPOTIFY;
            is_fetching := is_fetching st |})).
  { unfold show. simpl.
    replace (str_eqb _ _) with true; [done|].
    symmetry. by apply str_eqb_eq. }
  rewrite Hshow. simpl.
  replace (if none then [] else if none then [] else ts_list st)
    with (if none then [] else ts_list st) by (by destruct none).
  by rewrite IH.
Qed.

(** X12. As long as the title and the artist stay what they are, the
    track is resolved once: after a turn with a Spotify session, a turn
    whose session has the same title and artist fetches nothing, whatever
    else of the session changed. *)
Theorem unchanged_track_is_not_fetched_again (fs0 : files) (ts : list tick)
    (st st1 : tracker) (t : tick) (s s' : session) :
  after (run initial fs0 ts) = ok st ->
  current_session t = Some s -> is_spotify s = true ->
  after (poll st (cache (run initial fs0 ts)) t) = ok st1 ->
  title s' = title s -> artist s' = artist s ->
  forall fs w,
    track_change st1 fs s' w =
      {| emitted := []; cache := fs; requests := 0; after := ok st1 |}.
Proof.
  intros Hrun Hs Hsp Hpoll Hti Har fs w.
  pose proof (run_coherent ts initial st fs0 initial_coherent Hrun) as Hc.
  unfold poll in Hpoll. rewrite Hs, Hsp in Hpoll.
  destruct (after (track_change st _ s (world t))) as [e|st'] eqn:E.
  { by rewrite E in Hpoll. }
  destruct (track_change_coherent _ _ _ _ _ Hc E) as (Hf & _ & Hl).
  pose proof (position_check_keeps st' st1 s (now t)) as Hk.
  destruct (position_check st' s (now t)) as [out st2]. simpl in *.
  subst st2. destruct (Hk eq_refl) as (Hl1 & _ & _ & Hf1).
  unfold track_change, track_changed, song_id_of.
  rewrite Hl1, Hl, Hf1, Hf, Hti, Har. unfold song_id_of.
  replace (str_eqb _ _) with true; [done|]. symmetry. by apply str_eqb_eq.
Qed.

(** X15. A line without text is not shown after a change of track: when
    a turn fetches, and the line found for the estimated position has the
    empty text, the turn emits ["Searching..."] and nothing after it,
    because the fetch left [curr_text] empty and the empty line is no
    change. *)
Theorem empty_line_is_not_shown_after_fetch (st : tracker) (fs : files)
    (t : tick) (s : session) (d p e : float) (parsed : list entry) :
  current_session t = Some s -> is_spotify s = true ->
  track_changed st s = true ->
  total_seconds (end_time s) = ok d ->
  install (fetched_text (fetch_lyrics fs (world t) (artist s) (title s)
                           (album_title s) d)) = ok parsed ->
  playback_status s = PLAYING ->
  total_seconds (position s) = ok p ->
  total_seconds (now t - last_updated_time s) = ok e ->
  active_line parsed (map fst parsed) (fadd p e) = ok [] ->
  emitted (poll st fs t) = [SEARCHING] /\
  exists st1, after (poll st fs t) = ok st1 /\ curr_text st1 = [] /\
              parsed_lyrics st1 = parsed.
Proof.
  intros Hs Hsp Hch Hd Hinst Hplay Hp He Hline.
  unfold poll. rewrite Hs, Hsp. unfold track_change.
  rewrite Hch, Hd. simpl. rewrite Hinst. simpl.
  unfold position_check. simpl. rewrite Hplay, Z.eqb_refl, He, Hp. simpl.
  rewrite Hline. simpl. split; [done|]. eauto.
Qed.
End LoopProperties.

(** ** The window *)

Lemma notified_app (es1 es2 : list event) :
  notified (es1 ++ es2) = notified es1 ++ notified es2.
Proof. apply omap_app. Qed.

Lemma wrap_int_small (z : Z) :
  (- 2 ^ 31 <= z < 2 ^ 31)%Z -> wrap_int z = z.
Proof.
  intros Hz. unfold wrap_int.
  rewrite Z.mod_small by lia. lia.
Qed.

Section WindowFacts.
Context `{!Toolkit}.

Lemma handles_app (w : window) (es1 es2 : list event) :
  handles w (es1 ++ es2) = handles (handles w es1) es2.
Proof. apply foldl_app. Qed.

Lemma animate_fields (v : option float) (w : window) :
  label_text (animate v w) = label_text w /\
  next_text (animate v w) = next_text w /\
  anim (animate v w) = anim w /\
  window_pos (animate v w) = window_pos w /\
  drag_pos (animate v w) = drag_pos w /\
  is_auto_anchored (animate v w) = is_auto_anchored w /\
  close_btn_hidden (animate v w) = close_btn_hidden w.
Proof. by destruct v. Qed.

Lemma settled_notified (t : pystr) (w : window) :
  settled t (handle w (LyricChanged t)).
Proof. unfold settled. simpl. auto. Qed.

Lemma swap_fields (sw wd : Z) (w : window) :
  label_text (swap_text_and_fade_in sw wd w) = next_text w /\
  next_text (swap_text_and_fade_in sw wd w) = next_text w /\
  finished_connected (anim (swap_text_and_fade_in sw wd w)) = false /\
  running (anim (swap_text_and_fade_in sw wd w)) = true /\
  window_opacity (swap_text_and_fade_in sw wd w) = OPACITY_0 /\
  drag_pos (swap_text_and_fade_in sw wd w) = drag_pos w /\
  is_auto_anchored (swap_text_and_fade_in sw wd w) = is_auto_anchored w /\
  window_pos (swap_text_and_fade_in sw wd w) =
    (if is_auto_anchored w then ((sw - wd - 30)%Z, 30%Z) else window_pos w).
Proof.
  unfold swap_text_and_fade_in, anim_start. simpl.
  destruct (is_auto_anchored w) eqn:E; simpl; rewrite ?E;
    repeat split; reflexivity.
Qed.

Lemma settled_step (t : pystr) (w : window) (e : event) :
  settled t w -> notified [e] = [] -> settled t (handle w e).
Proof.
  intros (Hn & Hs) He. unfold settled.
  destruct e as [text|v|sw wd| | |b p|p]; simpl in *; try done.
  - destruct (running (anim w)) eqn:Hr; simpl; rewrite ?Hr; tauto.
  - unfold animation_finished.
    destruct (running (anim w)) eqn:Hr; [|rewrite ?Hr; tauto].
    destruct (animate_fields (end_value (anim w)) w)
      as (Hl & Hn' & Ha & _).
    change (finished_connected (anim (set_anim (set_running false)
              (animate (end_value (anim w)) w))))
      with (finished_connected (anim (animate (end_value (anim w)) w))).
    rewrite Ha.
    destruct (finished_connected (anim w)) eqn:Hc.
    + destruct (swap_fields sw wd (set_anim (set_running false)
                  (animate (end_value (anim w)) w)))
        as (-> & -> & -> & _).
      simpl. rewrite Hn'. auto.
    + simpl. rewrite Hn', Hl, Ha, Hc.
      destruct Hs as [[_ ?]|[? _]]; [congruence|auto].
  - destruct b; simpl; tauto.
  - unfold mouseMoveEvent. destruct (drag_pos w) as [d|]; [|tauto].
    destruct (point_truthy d); simpl; tauto.
Qed.

Lemma settled_last (w : window) (es : list event) (t : pystr) :
  last (notified es) = Some t -> settled t (handles w es).
Proof.
  induction es as [|e es IH] using rev_ind; [done|].
  rewrite notified_app, handles_app.
  change (handles (handles w es) [e]) with (handle (handles w es) e).
  destruct (notified [e]) as [|t' [|]] eqn:E.
  - rewrite app_nil_r. intros Hl. by apply settled_step; [apply IH|].
  - rewrite last_snoc. intros [= ->].
    destruct e; try done. injection E as ->. apply settled_notified.
  - by destruct e.
Qed.

Lemma settled_shown (t : pystr) (w : window) (sw wd : Z) :
  settled t w ->
  label_text (handle w (AnimationFinished sw wd)) = t /\
  finished_connected (anim (handle w (AnimationFinished sw wd))) = false.
Proof.
  intros (Hn & Hs). simpl. unfold animation_finished.
  destruct (animate_fields (end_value (anim w)) w) as (Hl & Hn' & Ha & _).
  destruct Hs as [[Hr Hc]|[Hl' Hc]].
  - rewrite Hr.
    change (finished_connected (anim (set_anim (set_running false)
              (animate (end_value (anim w)) w))))
      with (finished_connected (anim (animate (end_value (anim w)) w))).
    rewrite Ha, Hc.
    destruct (swap_fields sw wd (set_anim (set_running false)
                (animate (end_value (anim w)) w)))
      as (-> & _ & -> & _).
    simpl. by rewrite Hn'.
  - destruct (running (anim w)); [|done].
    change (finished_connected (anim (set_anim (set_running false)
              (animate (end_value (anim w)) w))))
      with (finished_connected (anim (animate (end_value (anim w)) w))).
    rewrite Ha, Hc. simpl. by rewrite Hl, Ha.
Qed.

Lemma shown_step (t : pystr) (w : window) (e : event) :
  label_text w = t /\ finished_connected (anim w) = false ->
  notified [e] = [] ->
  label_text (handle w e) = t /\
  finished_connected (anim (handle w e)) = false.
Proof.
  intros [Hl Hc] He.
  destruct e as [text|v|sw wd| | |b p|p]; simpl in *.
  - done.
  - by destruct (running (anim w)).
  - unfold animation_finished.
    destruct (running (anim w)); [|done].
    destruct (animate_fields (end_value (anim w)) w) as (Hl' & _ & Ha & _).
    change (finished_connected (anim (set_anim (set_running false)
              (animate (end_value (anim w)) w))))
      with (finished_connected (anim (animate (end_value (anim w)) w))).
    rewrite Ha, Hc. simpl. by rewrite Hl', Ha.
  - done.
  - done.
  - by destruct b.
  - unfold mouseMoveEvent. destruct (drag_pos w) as [d|]; [|done].
    by destruct (point_truthy d).
Qed.

Lemma shown_steps (t : pystr) (w : window) (es : list event) :
  label_text w = t /\ finished_connected (anim w) = false ->
  notified es = [] ->
  label_text (handles w es) = t /\
  finished_connected (anim (handles w es)) = false.
Proof.
  revert w. induction es as [|e es IH]; intros w Hw Hes; [done|].
  simpl. change (e :: es) with ([e] ++ es) in Hes.
  rewrite notified_app in Hes. apply app_eq_nil in Hes as [He Hes].
  apply IH; [|done]. by apply shown_step.
Qed.

Lemma label_after_finished (w : window) (es1 es2 : list event) (sw wd : Z)
    (t : pystr) :
  last (notified es1) = Some t -> notified es2 = [] ->
  label_text (handles w (es1 ++ AnimationFinished sw wd :: es2)) = t.
Proof.
  intros H1 H2. rewrite handles_app. simpl.
  apply shown_steps; [|done]. apply settled_shown. by apply settled_last.
Qed.


Lemma fading_out_init (sw wd : Z) : fading_out (init sw wd).
Proof. done. Qed.

Lemma fading_out_step (w : window) (e : event) :
  fading_out w -> fading_out (handle w e).
Proof.
  intros Hw. unfold fading_out.
  destruct e as [text|v|sw wd| | |b p|p]; simpl.
  - done.
  - destruct (running (anim w)) eqn:Hr; simpl; [|done].
    rewrite Hr. intros Hc. by destruct (Hw Hc).
  - unfold animation_finished.
    destruct (running (anim w)) eqn:Hr; [|done].
    destruct (animate_fields (end_value (anim w)) w) as (_ & _ & Ha & _).
    change (finished_connected (anim (set_anim (set_running false)
              (animate (end_value (anim w)) w))))
      with (finished_connected (anim (animate (end_value (anim w)) w))).
    rewrite Ha.
    destruct (finished_connected (anim w)) eqn:Hc.
    + destruct (swap_fields sw wd (set_anim (set_running false)
                  (animate (end_value (anim w)) w)))
        as (_ & _ & -> & _). done.
    + simpl. by rewrite Ha, Hc.
  - done.
  - done.
  - by destruct b.
  - unfold mouseMoveEvent. destruct (drag_pos w) as [d|]; [|done].
    by destruct (point_truthy d).
Qed.

Lemma fading_out_steps (w : window) (es : list event) :
  fading_out w -> fading_out (handles w es).
Proof.
  revert w. induction es as [|e es IH]; intros w Hw; [done|].
  simpl. apply IH. by apply fading_out_step.
Qed.

Lemma label_change (w : window) (e : event) :
  fading_out w -> label_text (handle w e) <> label_text w ->
  exists sw wd, e = AnimationFinished sw wd /\
    running (anim w) = true /\ finished_connected (anim w) = true /\
    handle w e =
      swap_text_and_fade_in sw wd
        (set_anim (set_running false) (setWindowOpacity OPACITY_0 w)).
Proof.
  intros Hw Hne.
  destruct e as [text|v|sw wd| | |b p|p]; simpl in *.
  - done.
  - by destruct (running (anim w)).
  - exists sw, wd. split; [done|]. revert Hne. unfold animation_finished.
    destruct (running (anim w)) eqn:Hr; [|done].
    destruct (animate_fields (end_value (anim w)) w) as (Hl & _ & Ha & _).
    change (finished_connected (anim (set_anim (set_running false)
              (animate (end_value (anim w)) w))))
      with (finished_connected (anim (animate (end_value (anim w)) w))).
    rewrite Ha.
    destruct (finished_connected (anim w)) eqn:Hc.
    + intros _. destruct (Hw Hc) as [_ ->]. done.
    + simpl. by rewrite Hl.
  - done.
  - done.
  - by destruct b.
  - exfalso. apply Hne. unfold mouseMoveEvent.
    destruct (drag_pos w) as [d|]; [|done]. by destruct (point_truthy d).
Qed.


(** X22. The text of the label changes only while the window is
    transparent: in every state the window reaches from [__init__], an
    event that changes the text is the end of a running animation whose
    [finished] is connected, and [swap_text_and_fade_in] then runs on the
    window at opacity [0.0], the end value of the fade-out. *)
Theorem text_is_swapped_while_transparent (screen_width0 width0 : Z)
    (es : list event) (e : event) :
  let w := handles (init screen_width0 width0) es in
  label_text (handle w e) <> label_text w ->
  exists screen_width width,
    e = AnimationFinished screen_width width /\
    running (anim w) = true /\ finished_connected (anim w) = true /\
    handle w e =
      swap_text_and_fade_in screen_width width
        (set_anim (set_running false) (setWindowOpacity OPACITY_0 w)).
Proof.
  intros w. apply label_change. apply fading_out_steps, fading_out_init.
Qed.

Lemma released_step (w : window) (e : event) :
  is_auto_anchored w = false -> is_move e = false ->
  is_auto_anchored (handle w e) = false /\
  window_pos (handle w e) = window_pos w.
Proof.
  intros Ha He.
  destruct e as [text|v|sw wd| | |b p|p]; simpl in *.
  - done.
  - by destruct (running (anim w)).
  - unfold animation_finished.
    destruct (running (anim w)); [|done].
    destruct (animate_fields (end_value (anim w)) w)
      as (_ & _ & Han & Hp & _ & Hau & _).
    change (finished_connected (anim (set_anim (set_running false)
              (animate (end_value (anim w)) w))))
      with (finished_connected (anim (animate (end_value (anim w)) w))).
    destruct (finished_connected _).
    + destruct (swap_fields sw wd (set_anim (set_running false)
                  (animate (end_value (anim w)) w)))
        as (_ & _ & _ & _ & _ & _ & -> & ->).
      simpl. by rewrite Hau, Ha, Hp.
    + simpl. by rewrite Hau, Hp.
  - done.
  - done.
  - by destruct b.
  - done.
Qed.

Lemma released_steps (w : window) (es : list event) :
  is_auto_anchored w = false -> Forall (fun e => is_move e = false) es ->
  is_auto_anchored (handles w es) = false /\
  window_pos (handles w es) = window_pos w.
Proof.
  intros Ha Hes. revert w Ha.
  induction Hes as [|e es He Hes IH]; intros w Ha; [done|].
  simpl. destruct (released_step w e Ha He) as [Ha' Hp'].
  destruct (IH _ Ha') as [? ->]. done.
Qed.

(** X23. A window the user has taken hold of is not anchored again: after
    a press of the left button, whatever texts arrive and whatever
    animations end, [is_auto_anchored] stays [False] and the window is
    where it was; only [mouseMoveEvent] moves it. *)
Theorem pressed_window_is_not_anchored_again (w : window) (p : point)
    (es : list event) :
  Forall (fun e => is_move e = false) es ->
  is_auto_anchored (handles (handle w (MousePress true p)) es) = false /\
  window_pos (handles (handle w (MousePress true p)) es) = window_pos w.
Proof.
  intros Hes.
  destruct (released_steps (handle w (MousePress true p)) es eq_refl Hes)
    as [-> ->]. done.
Qed.

Lemma gripped_step (w0 : window) (p0 p : point) (w : window) (e : event) :
  gripped w0 p0 p w -> keeps_grip e ->
  gripped w0 p0 (last_move p [e]) (handle w e).
Proof.
  intros (Ha & Hd & Hon & Ht & Hp) He. unfold gripped, last_move.
  destruct e as [text|v|sw wd| | |b q|q]; simpl in *.
  - done.
  - destruct (running (anim w)); simpl; done.
  - unfold animation_finished.
    destruct (running (anim w)); [|done].
    destruct (animate_fields (end_value (anim w)) w)
      as (_ & _ & Han & Hp' & Hd' & Hau & _).
    change (finished_connected (anim (set_anim (set_running false)
              (animate (end_value (anim w)) w))))
      with (finished_connected (anim (animate (end_value (anim w)) w))).
    destruct (finished_connected _).
    + destruct (swap_fields sw wd (set_anim (set_running false)
                  (animate (end_value (anim w)) w)))
        as (_ & _ & _ & _ & _ & -> & -> & ->).
      simpl. by rewrite Hau, Ha, Hp', Hd'.
    + simpl. by rewrite Hau, Hp', Hd'.
  - done.
  - done.
  - by subst b.
  - destruct He as [Hq Htq]. unfold mouseMoveEvent. rewrite Hd, Ht. simpl.
    split; [done|]. split; [done|]. split; [done|]. split; [done|].
    rewrite Hp. simpl. destruct Hon as [? ?], Hq as [? ?].
    rewrite !wrap_int_small by lia. f_equal; lia.
Qed.

Lemma gripped_steps (w0 : window) (p0 p : point) (w : window)
    (es : list event) :
  gripped w0 p0 p w -> Forall keeps_grip es ->
  gripped w0 p0 (last_move p es) (handles w es).
Proof.
  intros Hg Hes. revert p w Hg.
  induction Hes as [|e es He Hes IH]; intros p w Hg; [done|].
  simpl. apply (IH (last_move p [e])). by apply gripped_step.
Qed.

Lemma gripped_move (w0 : window) (p0 p q : point) (w : window) :
  gripped w0 p0 p w -> on_screen q ->
  drag_pos (handle w (MouseMove q)) = Some q /\
  window_pos (handle w (MouseMove q)) =
    ((window_pos w).1 + (q.1 - p.1), (window_pos w).2 + (q.2 - p.2))%Z.
Proof.
  intros (Ha & Hd & Hon & Ht & Hp) Hq. simpl. unfold mouseMoveEvent.
  rewrite Hd, Ht. simpl. split; [done|].
  destruct Hon as [? ?], Hq as [? ?].
  by rewrite !wrap_int_small by lia.
Qed.

(** X24. There is no handler for the release of the button, so a grip
    never ends: after a press of the left button at [p0], as long as no
    new left press comes, [drag_pos] is the point of the last mouse move
    and the window is displaced from where it was by exactly the way of
    the cursor from [p0] to that point; and the next mouse move, to any
    point [q] of the screen, moves the window by the way of the cursor
    from that point to [q] (for points of the screen that the binding
    counts as true, between which the [int]s of [QPoint] do not wrap). *)
Theorem window_follows_cursor (w : window) (p0 : point) (es : list event) :
  on_screen p0 -> point_truthy p0 = true -> Forall keeps_grip es ->
  let w1 := handles (handle w (MousePress true p0)) es in
  let p := last_move p0 es in
  drag_pos w1 = Some p /\
  window_pos w1 =
    ((window_pos w).1 + (p.1 - p0.1), (window_pos w).2 + (p.2 - p0.2))%Z /\
  forall q, on_screen q ->
    drag_pos (handle w1 (MouseMove q)) = Some q /\
    window_pos (handle w1 (MouseMove q)) =
      ((window_pos w1).1 + (q.1 - p.1), (window_pos w1).2 + (q.2 - p.2))%Z.
Proof.
  intros Hon Ht Hes.
  assert (Hg : gripped w p0 p0 (handle w (MousePress true p0))).
  { split; [done|]. simpl. split; [done|]. split; [done|]. split; [done|].
    destruct (window_pos w) as [x y]. simpl. f_equal; lia. }
  pose proof (gripped_steps w p0 p0 _ es Hg Hes) as Hg'.
  simpl. split; [apply Hg'|]. split; [apply Hg'|].
  intros q Hq. by apply (gripped_move w p0 (last_move p0 es)).
Qed.
End WindowFacts.

(** ** The worker and the window *)

Lemma last_emitted_last (prev : option pystr) (out : list pystr) :
  last_emitted prev out =
    match last out with Some x => Some x | None => prev end.
Proof.
  induction out as [|x out IH] using rev_ind; [done|].
  unfold last_emitted. rewrite foldl_app. simpl. by rewrite last_snoc.
Qed.

Section WorkerAndWindow.
Context `{!Runtime} `{!Toolkit}.

Lemma run_remembers (ts : list tick) (st st1 : tracker) (fs : files)
    (prev : option pystr) :
  remembers prev st -> after (run st fs ts) = ok st1 ->
  remembers (last_emitted prev (emitted (run st fs ts))) st1.
Proof.
  revert st fs prev. induction ts as [|t ts IH]; intros st fs prev Hr; simpl.
  - by intros [= <-].
  - pose proof (poll_chain st fs t prev Hr) as [_ Hr'].
    destruct (after (poll st fs t)) as [e|st'] eqn:E; [by rewrite E|].
    simpl. rewrite last_emitted_app. apply IH. by apply Hr'.
Qed.

(** X26. The label and the worker agree: when the window has received
    the notifications of a run of the loop, in their order, and an
    animation has ended after the last of them, the label shows
    [curr_text], the text the loop compares new lines with; or it shows
    ["Searching..."] and [curr_text] is empty, as the fetch leaves it. *)
Theorem label_is_what_the_loop_remembers (fs0 : files) (ts : list tick)
    (st : tracker) (w : window) (es1 es2 : list event)
    (screen_width width : Z) :
  after (run initial fs0 ts) = ok st ->
  notified es1 = emitted (run initial fs0 ts) ->
  emitted (run initial fs0 ts) <> [] ->
  notified es2 = [] ->
  let shown :=
    label_text
      (handles w (es1 ++ AnimationFinished screen_width width :: es2)) in
  shown = curr_text st \/ (shown = SEARCHING /\ curr_text st = []).
Proof.
  intros Hrun Hn Hne H2.
  assert (Hr : remembers None initial) by done.
  pose proof (run_remembers ts initial st fs0 None Hr Hrun) as Hrem.
  rewrite last_emitted_last in Hrem.
  destruct (last (emitted (run initial fs0 ts))) as [x|] eqn:El.
  - simpl. rewrite (label_after_finished w es1 es2 screen_width width x).
    + by apply Hrem.
    + by rewrite Hn.
    + done.
  - apply last_None in El. done.
Qed.
End WorkerAndWindow.

Section Hover.
Context `{!Toolkit}.

Lemma close_btn_step (w : window) (e : event) :
  close_btn_hidden (handle w e) =
    match e with
    | Enter => false
    | Leave => true
    | _ => close_btn_hidden w
    end.
Proof.
  destruct e as [text|v|sw wd| | |b p|p]; simpl; try done.
  - by destruct (running (anim w)).
  - unfold animation_finished.
    destruct (running (anim w)); [|done].
    destruct (animate_fields (end_value (anim w)) w)
      as (_ & _ & Ha & _ & _ & _ & Hc).
    change (finished_connected (anim (set_anim (set_running false)
              (animate (end_value (anim w)) w))))
      with (finished_connected (anim (animate (end_value (anim w)) w))).
    destruct (finished_connected _); [|done].
    unfold swap_text_and_fade_in, anim_start. simpl.
    by destruct (is_auto_anchored _).
  - by destruct b.
  - unfold mouseMoveEvent. destruct (drag_pos w) as [d|]; [|done].
    by destruct (point_truthy d).
Qed.

Lemma close_btn_steps (w : window) (es : list event) :
  close_btn_hidden (handles w es) =
    negb (foldl (fun h e =>
                   match e with Enter => true | Leave => false | _ => h end)
            (negb (close_btn_hidden w)) es).
Proof.
  revert w. induction es as [|e es IH]; intros w; simpl.
  - by rewrite negb_involutive.
  - rewrite IH, close_btn_step. by destruct e; rewrite ?negb_involutive.
Qed.

(** X25. The close button is shown exactly while the cursor is over the
    window: from [__init__] on, whatever texts arrive and whatever the
    animation and the mouse buttons do, the button is hidden unless the
    last of the enter and leave events was an enter. *)
Theorem close_button_follows_hover (screen_width width : Z)
    (es : list event) :
  close_btn_hidden (handles (init screen_width width) es) =
    negb (hovering es).
Proof. apply close_btn_steps. Qed.
End Hover.

(** * The claims on concrete inputs *)

#[local] Existing Instance ascii_runtime.

(** The library functions of the model on small inputs, as the
    interpreter answers them. *)

Example splitlines_examples :
  splitlines (py "ab" ++ [LF] ++ py "cd" ++ [CR; LF; LF] ++ py "e" ++ [CR]) =
    [py "ab"; py "cd"; []; py "e"] /\
  splitlines (py "a" ++ [LF; CR] ++ py "b") = [py "a"; []; py "b"] /\
  splitlines [CR; LF] = [[]] /\
  splitlines [] = [].
Proof. repeat split; reflexivity. Qed.

Example strip_example : strip (py "  la la  " ++ [0x3000%N]) = py "la la".
Proof. reflexivity. Qed.

Example match_line_examples :
  match_line (py "[00:12.34] hello ") =
    Some (py "00", py "12.34", py " hello ") /\
  match_line (py "[ar:Artist]") = None /\
  match_line (py "[00:12]x") = None /\
  match_line (py " [00:12.34]x") = None.
Proof. repeat split; reflexivity. Qed.

Example parse_lrc_example :
  parse_lrc (py "[ti:Song]" ++ [LF] ++ py "[00:10.50] B " ++ [LF]
             ++ py "[00:00.00]A" ++ [LF] ++ py "[00:20.00]C") =
  ok abc_document.
Proof. vm_compute. reflexivity. Qed.



Lemma abc_document_lyric_document : lyric_document abc_document.
Proof. split; repeat constructor. Qed.

Example active_line_abc :
  active_line abc_document (map fst abc_document) (seconds 5 1) = ok (py "A") /\
  active_line abc_document (map fst abc_document) (seconds 105 10) = ok (py "B") /\
  active_line abc_document (map fst abc_document) (seconds 25 1) = ok (py "C") /\
  active_line abc_document (map fst abc_document) (seconds (-1) 1) = ok SENTINEL.
Proof. repeat split; reflexivity. Qed.

Lemma active_line_greatest_witness :
  lyric_document abc_document /\ is_nan (seconds 105 10) = false /\
  active_line abc_document (map fst abc_document) (seconds 105 10) =
    ok (linear_scan abc_document (seconds 105 10)).
Proof.
  split; [apply abc_document_lyric_document|]. split; [reflexivity|].
  apply (active_line_greatest abc_document (seconds 105 10));
    [apply abc_document_lyric_document|reflexivity].
Defined.


(** C2 fails as stated: the two lines of [tie_text] have the same
    timestamp, the line with ["b"] comes first in the text, and the
    document has the entry with ["a"] first. *)
Lemma parse_lrc_orders_equal_timestamps_by_text :
  entries_of (matches_of tie_text) =
    ok [(seconds 1 1, py "b"); (seconds 1 1, py "a")] /\
  parse_lrc tie_text = ok [(seconds 1 1, py "a"); (seconds 1 1, py "b")].
Proof. split; vm_compute; reflexivity. Qed.

Lemma parse_lrc_sorted_witness :
  parse_lrc tie_text = ok [(seconds 1 1, py "a"); (seconds 1 1, py "b")] /\
  Sorted timestamp_le [(seconds 1 1, py "a"); (seconds 1 1, py "b")].
Proof.
  split; [vm_compute; reflexivity|].
  destruct (parse_lrc_sorted_by_timestamp_then_text tie_text
              [(seconds 1 1, py "a"); (seconds 1 1, py "b")])
    as (es & _ & _ & _ & Hs & _); [vm_compute; reflexivity|exact Hs].
Defined.


(** C8, at an input where the code departs from it. The one line of
    [huge_minutes_text] matches the pattern, with a minutes field of 309
    digits, and [parse_lrc] raises [OverflowError] on it: the minutes
    times 60 are too large for the float that the addition needs. *)
Theorem parse_lrc_raises_on_huge_minutes :
  match_line huge_minutes_text =
    Some (py "1" ++ replicate 308 (chr "0"), py "00.00", py "x") /\
  parse_lrc huge_minutes_text = raise OverflowError.
Proof. split; vm_compute; reflexivity. Qed.




(** C3, at an input where the code departs from it: the title ["a-b"]
    by the artist ["c"], then the title ["a"] by the artist ["b-c"]. The
    first turn fetches; the second, on another artist and title, has the
    same [song_id], so it fetches nothing and emits nothing. *)
Theorem song_id_collision_skips_fetch :
  let first := poll initial ∅ (see (paused (py "c") (py "a-b"))) in
  (py "c", py "a-b") <> (py "b-c", py "a") /\
  requests first = 1%nat /\ emitted first = [SEARCHING] /\
  exists st1, after first = ok st1 /\
    track_changed st1 (paused (py "b-c") (py "a")) = false /\
    poll st1 (cache first) (see (paused (py "b-c") (py "a"))) =
      {| emitted := []; cache := cache first; requests := 0;
         after := ok st1 |}.
Proof.
  split; [done|]. split; [reflexivity|]. split; [reflexivity|].
  eexists. split; [reflexivity|]. split; reflexivity.
Qed.

(** C6 fails as stated: two changes of track while playback is paused
    emit ["Searching..."] twice in a row. *)
Lemma searching_emitted_twice_in_a_row :
  emitted (run initial ∅
             [see (paused (py "Artist1") (py "Song1"));
              see (paused (py "Artist1") (py "Song2"))]) =
  [SEARCHING; SEARCHING].
Proof. reflexivity. Qed.

Lemma repeated_notification_witness :
  let s := paused (py "Artist1") (py "Song1") in
  let out := emitted (run initial ∅
               [see s; see (paused (py "Artist1") (py "Song3"))]) in
  out !! 0%nat = Some SEARCHING /\ out !! 1%nat = Some SEARCHING /\
  SEARCHING = SEARCHING /\
  exists st,
    after (run initial ∅ [see s]) = ok st /\
    new_track st (see s) = false /\
    emitted (poll st (cache (run initial ∅ [see s])) (see s)) = [].
Proof.
  split; [reflexivity|]. split; [reflexivity|]. split.
  - apply (proj1 (repeated_notification_is_searching ∅
             [see (paused (py "Artist1") (py "Song1"));
              see (paused (py "Artist1") (py "Song3"))]) 0%nat SEARCHING);
      reflexivity.
  - eexists. split; [reflexivity|].
    match goal with |- new_track ?st0 _ = false /\ _ =>
      destruct (proj2 (@repeated_notification_is_searching ascii_runtime ∅
                  [see (paused (py "Artist1") (py "Song1"))]) st0
                  (see (paused (py "Artist1") (py "Song1"))))
        as (shown & He & _ & _ & Hs & _)
    end; [reflexivity|].
    split; [reflexivity|].
    rewrite He. destruct shown as [|x shown]; [reflexivity|].
    discriminate (Hs ltac:(discriminate)).
Defined.







Lemma position_check_witness :
  let s := playing (py "Artist1") (py "Song1") 1000000 in
  playback_status s = PLAYING /\
  total_seconds (position s) = ok (seconds 30 1) /\
  total_seconds (3000000 - last_updated_time s) = ok (seconds 2 1) /\
  total_seconds 32000000 = ok (fadd (seconds 30 1) (seconds 2 1)).
Proof.
  split; [reflexivity|]. split; [reflexivity|]. split; [reflexivity|].
  refine (proj2 (position_check_interpolates initial
           (playing (py "Artist1") (py "Song1") 1000000) 3000000
           (seconds 30 1) (seconds 2 1) _ _ _) _ _); reflexivity.
Defined.

Lemma fetch_failure_witness :
  let s := playing (py "Artist1") (py "Song1") 1000000 in
  (∅ : files) !! cache_path (artist s) (title s) = None /\
  fetch_failure (lrclib offline
    {| artist_name := artist s; track_name := title s;
       album_name := album_title s; duration := seconds 180 1 |}) = true /\
  fetch_lyrics ∅ offline (artist s) (title s) (album_title s) (seconds 180 1) =
    {| fetched_text := None; fetched_files := ∅; fetched_requests := 1 |}.
Proof.
  split; [reflexivity|]. split; [reflexivity|].
  refine (proj1 (fetch_failure_installs_empty_document initial ∅
           (playing (py "Artist1") (py "Song1") 1000000) offline
           (seconds 180 1) _ _)); reflexivity.
Defined.

Lemma paused_turn_witness :
  let s := paused (py "Artist1") (py "Song1") in
  current_session (see s) = Some s /\ is_spotify s = true /\
  playback_status s <> PLAYING /\
  poll initial ∅ (see s) = track_change initial ∅ s (world (see s)).
Proof.
  split; [reflexivity|]. split; [reflexivity|]. split; [discriminate|].
  refine (proj1 (proj2 (paused_turn_keeps_state initial ∅
           (see (paused (py "Artist1") (py "Song1")))
           (paused (py "Artist1") (py "Song1")) _ _ _)));
    [reflexivity|reflexivity|discriminate].
Defined.


Lemma ts_list_witness :
  let s := playing (py "Artist1") (py "Song1") 1000000 in
  let t := {| current_session := Some s; now := 3000000;
              world := lrclib_with lf_lyrics |} in
  let before := run initial ∅ [t; see other_player] in
  exists st st1,
    after before = ok st /\
    ts_list st <> map fst (parsed_lyrics st) /\
    after (track_change st (cache before) s (world t)) = ok st1 /\
    ts_list st1 = map fst (parsed_lyrics st1).
Proof.
  eexists. eexists. split; [reflexivity|]. split; [discriminate|].
  split; [reflexivity|].
  refine (proj1 (ts_list_indexes_parsed_lyrics ∅
    [ {| current_session := Some (playing (py "Artist1") (py "Song1") 1000000);
         now := 3000000; world := lrclib_with lf_lyrics |};
      see other_player ] _
    {| current_session := Some (playing (py "Artist1") (py "Song1") 1000000);
       now := 3000000; world := lrclib_with lf_lyrics |}
    (playing (py "Artist1") (py "Song1") 1000000) _ _ _ _ _)); reflexivity.
Defined.

(** * The further properties on concrete inputs *)

#[local] Existing Instance null_is_false.


Lemma parsed_document_is_clean_witness :
  let doc := [(seconds 1 1, py "a"); (seconds 2 1, py "b")] in
  parse_lrc lf_lyrics = ok doc /\
  Forall (fun e => nonneg e.1 = true /\ is_nan e.1 = false /\ trimmed e.2) doc.
Proof.
  split; [vm_compute; reflexivity|].
  apply (parsed_document_is_clean lf_lyrics). vm_compute. reflexivity.
Defined.

Lemma parse_lrc_ignores_line_order_witness :
  let doc := [(seconds 1 1, py "a"); (seconds 2 1, py "b")] in
  parse_lrc lf_lyrics = ok doc /\
  omap match_line (splitlines shuffled_lyrics)
    ≡ₚ omap match_line (splitlines lf_lyrics) /\
  parse_lrc shuffled_lyrics = ok doc.
Proof.
  split; [vm_compute; reflexivity|].
  split; [apply Permutation_swap|].
  apply (parse_lrc_ignores_line_order lf_lyrics shuffled_lyrics);
    [vm_compute; reflexivity|apply Permutation_swap].
Defined.

Lemma tracks_with_one_key_share_lyrics_witness :
  let first := fetch_lyrics ∅ (lrclib_with lf_lyrics)
                 (py "A b") (py "c") [] (seconds 180 1) in
  fetched_text first = Some lf_lyrics /\ fetched_requests first = 1%nat /\
  fetch_lyrics (fetched_files first) offline
    (py "a") (py "B c") (py "Album2") (seconds 200 1) =
  {| fetched_text := Some (read_text (write_text lf_lyrics));
     fetched_files := fetched_files first; fetched_requests := 0 |}.
Proof.
  split; [reflexivity|]. split; [reflexivity|].
  refine (tracks_with_one_key_share_lyrics ∅ (lrclib_with lf_lyrics)
           (py "A b") (py "c") [] (py "a") (py "B c") (seconds 180 1)
           lf_lyrics _ _ _ offline (py "Album2") (seconds 200 1));
    reflexivity.
Defined.

Lemma failed_write_leaves_empty_cache_file_witness :
  (∅ : files) !! cache_path (py "Artist1") (py "Song1") = None /\
  fetch_lyrics ∅ surrogate_world (py "Artist1") (py "Song1") []
    (seconds 180 1) =
  {| fetched_text := None;
     fetched_files := <[cache_path (py "Artist1") (py "Song1") := []]> ∅;
     fetched_requests := 1 |}.
Proof.
  split; [reflexivity|].
  refine (proj1 (failed_write_leaves_empty_cache_file ∅ surrogate_world
           (py "Artist1") (py "Song1") [] (seconds 180 1)
           (JString (py "[00:01.00]" ++ [0xD800%N])) _ _ _ _ _));
    reflexivity.
Defined.

Lemma turn_never_raises_index_error_witness :
  let s := playing (py "Artist1") (py "Song1") 1000000 in
  let before := run initial ∅ [hear lf_lyrics s 3000000; see other_player] in
  exists st,
    after before = ok st /\
    after (poll st (cache before) (hear lf_lyrics s 3000000))
      <> raise IndexError.
Proof.
  eexists. split; [reflexivity|].
  refine (turn_never_raises_index_error ∅
    [hear lf_lyrics (playing (py "Artist1") (py "Song1") 1000000) 3000000;
     see other_player] _
    (hear lf_lyrics (playing (py "Artist1") (py "Song1") 1000000) 3000000) _).
  reflexivity.
Defined.

Lemma reachable_lookup_is_scan_witness :
  let s := playing (py "Artist1") (py "Song1") 1000000 in
  let t := hear lf_lyrics s 3000000 in
  let before := run initial ∅ [t; see other_player] in
  exists st st1,
    after before = ok st /\
    after (track_change st (cache before) s (world t)) = ok st1 /\
    active_line (parsed_lyrics st1) (ts_list st1)
      (fadd (seconds 30 1) (seconds 2 1)) =
    ok (linear_scan (parsed_lyrics st1) (fadd (seconds 30 1) (seconds 2 1))).
Proof.
  eexists. eexists. split; [reflexivity|]. split; [reflexivity|].
  refine (reachable_lookup_is_scan ∅
    [hear lf_lyrics (playing (py "Artist1") (py "Song1") 1000000) 3000000;
     see other_player] _ _
    (hear lf_lyrics (playing (py "Artist1") (py "Song1") 1000000) 3000000)
    (playing (py "Artist1") (py "Song1") 1000000)
    (seconds 30 1) (seconds 2 1) _ _ _ _); reflexivity.
Defined.

Lemma fetching_flag_is_clear_between_turns_witness :
  let s := playing (py "Artist1") (py "Song1") 1000000 in
  exists st,
    after (run initial ∅ [hear lf_lyrics s 3000000]) = ok st /\
    is_fetching st = false.
Proof.
  eexists. split; [reflexivity|].
  refine (proj1 (fetching_flag_is_clear_between_turns ∅
    [hear lf_lyrics (playing (py "Artist1") (py "Song1") 1000000) 3000000]
    _ _)).
  reflexivity.
Defined.

Lemma run_keeps_cache_files_witness :
  let s := playing (py "Artist1") (py "Song1") 1000000 in
  let fs : files := {[ py "artist2_song2.lrc" := py "x" ]} in
  fs !! py "artist2_song2.lrc" = Some (py "x") /\
  cache (run initial fs [hear lf_lyrics s 3000000; see other_player])
    !! py "artist2_song2.lrc" = Some (py "x").
Proof.
  split; [reflexivity|].
  apply (run_keeps_cache_files initial
    {[ py "artist2_song2.lrc" := py "x" ]}
    [hear lf_lyrics (playing (py "Artist1") (py "Song1") 1000000) 3000000;
     see other_player]).
  reflexivity.
Defined.

Lemma return_to_spotify_fetches_witness :
  let s := playing (py "Artist1") (py "Song1") 1000000 in
  let before := run initial ∅ [hear lf_lyrics s 3000000] in
  away false (see other_player) /\
  exists st st1,
    after before = ok st /\
    after (poll st (cache before) (see other_player)) = ok st1 /\
    last_id st1 = [].
Proof.
  split; [exists other_player; split; reflexivity|].
  eexists. eexists. split; [reflexivity|]. split; [reflexivity|].
  refine (proj1 (return_to_spotify_fetches ∅
    [hear lf_lyrics (playing (py "Artist1") (py "Song1") 1000000) 3000000]
    _ _ false (see other_player) _ _ _)).
  - reflexivity.
  - exists other_player. split; reflexivity.
  - reflexivity.
Defined.

Lemma empty_line_is_not_shown_after_fetch_witness :
  let s := playing (py "Artist1") (py "Song1") 1000000 in
  let t := hear blank_lyrics s 3000000 in
  install (fetched_text (fetch_lyrics ∅ (world t) (artist s) (title s)
                           (album_title s) (seconds 180 1)))
    = ok blank_document /\
  active_line blank_document (map fst blank_document)
    (fadd (seconds 30 1) (seconds 2 1)) = ok [] /\
  emitted (poll initial ∅ t) = [SEARCHING].
Proof.
  split; [reflexivity|]. split; [reflexivity|].
  refine (proj1 (empty_line_is_not_shown_after_fetch initial ∅
    (hear blank_lyrics (playing (py "Artist1") (py "Song1") 1000000) 3000000)
    (playing (py "Artist1") (py "Song1") 1000000)
    (seconds 180 1) (seconds 30 1) (seconds 2 1) blank_document
    _ _ _ _ _ _ _ _ _)); reflexivity.
Defined.

Lemma placeholder_is_emitted_once_witness :
  away true idle /\ Forall (away true) [idle; idle] /\
  exists st1,
    after (poll initial ∅ idle) = ok st1 /\
    run st1 (cache (poll initial ∅ idle)) [idle; idle] =
      {| emitted := []; cache := ∅; requests := 0; after := ok st1 |}.
Proof.
  split; [reflexivity|]. split; [repeat constructor|].
  apply (placeholder_is_emitted_once true initial ∅ idle [idle; idle]);
    [reflexivity|repeat constructor].
Defined.

Lemma unchanged_track_is_not_fetched_again_witness :
  let s := playing (py "Artist1") (py "Song1") 1000000 in
  let s' := paused (py "Artist1") (py "Song1") in
  let t := hear lf_lyrics s 3000000 in
  exists st1,
    after (poll initial ∅ t) = ok st1 /\
    track_change st1 ∅ s' offline =
      {| emitted := []; cache := ∅; requests := 0; after := ok st1 |}.
Proof.
  eexists. split; [reflexivity|].
  refine (unchanged_track_is_not_fetched_again ∅ [] initial _
    (hear lf_lyrics (playing (py "Artist1") (py "Song1") 1000000) 3000000)
    (playing (py "Artist1") (py "Song1") 1000000)
    (paused (py "Artist1") (py "Song1")) _ _ _ _ _ _ ∅ offline);
    reflexivity.
Defined.

Lemma lookup_index_grows_with_position_witness :
  lyric_document abc_document /\
  fleb (seconds 5 1) (seconds 15 1) = true /\
  bisect_right (map fst abc_document) (seconds 5 1) = ok 1%nat /\
  bisect_right (map fst abc_document) (seconds 15 1) = ok 2%nat /\
  (1 <= 2)%nat.
Proof.
  split; [apply abc_document_lyric_document|]. split; [reflexivity|].
  split; [reflexivity|]. split; [reflexivity|].
  apply (lookup_index_grows_with_position abc_document
           (seconds 5 1) (seconds 15 1) 1 2);
    [apply abc_document_lyric_document|reflexivity..].
Defined.

Lemma estimated_position_is_a_number_witness :
  total_seconds 30000000 = ok (seconds 30 1) /\
  total_seconds 2000000 = ok (seconds 2 1) /\
  is_nan (fadd (seconds 30 1) (seconds 2 1)) = false.
Proof.
  split; [reflexivity|]. split; [reflexivity|].
  refine (proj2 (proj2 (estimated_position_is_a_number 30000000 2000000
           (seconds 30 1) (seconds 2 1) _ _))); reflexivity.
Defined.


Lemma text_is_swapped_while_transparent_witness :
  let w := handles (init 1920 640) [LyricChanged (py "a")] in
  label_text (handle w (AnimationFinished 1920 200)) <> label_text w /\
  exists screen_width width,
    AnimationFinished 1920 200 = AnimationFinished screen_width width /\
    running (anim w) = true /\ finished_connected (anim w) = true /\
    handle w (AnimationFinished 1920 200) =
      swap_text_and_fade_in screen_width width
        (set_anim (set_running false) (setWindowOpacity OPACITY_0 w)).
Proof.
  split; [discriminate|].
  apply (text_is_swapped_while_transparent 1920 640 [LyricChanged (py "a")]
           (AnimationFinished 1920 200)).
  discriminate.
Defined.

Lemma pressed_window_is_not_anchored_again_witness :
  let es := [LyricChanged (py "a"); AnimationFinished 1920 200] in
  Forall (fun e => is_move e = false) es /\
  window_pos (handles (handle (init 1920 640) (MousePress true (100, 100)%Z))
                es) = (1250, 30)%Z.
Proof.
  split; [repeat constructor|].
  refine (proj2 (pressed_window_is_not_anchored_again (init 1920 640)
    (100, 100)%Z [LyricChanged (py "a"); AnimationFinished 1920 200] _)).
  repeat constructor.
Defined.

Lemma window_follows_cursor_witness :
  let es := [MouseMove (110, 120)%Z; LyricChanged (py "a");
             MouseMove (150, 90)%Z] in
  let w1 := handles (handle (init 1920 640) (MousePress true (100, 100)%Z))
              es in
  on_screen (100, 100)%Z /\ Forall keeps_grip es /\
  drag_pos w1 = Some (150, 90)%Z /\ window_pos w1 = (1300, 20)%Z.
Proof.
  assert (Hs : forall x y : Z,
            (- 2 ^ 29 <= x < 2 ^ 29)%Z -> (- 2 ^ 29 <= y < 2 ^ 29)%Z ->
            on_screen (x, y)) by (intros x y Hx Hy; split; assumption).
  split; [apply Hs; lia|].
  split.
  { repeat constructor; simpl; try apply Hs; lia. }
  destruct (window_follows_cursor (init 1920 640) (100, 100)%Z
    [MouseMove (110, 120)%Z; LyricChanged (py "a"); MouseMove (150, 90)%Z])
    as (Hd & Hp & _).
  - apply Hs; lia.
  - reflexivity.
  - repeat constructor; simpl; try apply Hs; lia.
  - split; [exact Hd|exact Hp].
Defined.

Lemma label_is_what_the_loop_remembers_witness :
  let s := playing (py "Artist1") (py "Song1") 1000000 in
  let r := run initial ∅ [hear lf_lyrics s 3000000] in
  emitted r = [SEARCHING; py "b"] /\
  exists st,
    after r = ok st /\
    let shown :=
      label_text (handles (init 1920 640)
        ([LyricChanged SEARCHING; LyricChanged (py "b")]
           ++ AnimationFinished 1920 200 :: [])) in
    shown = curr_text st \/ (shown = SEARCHING /\ curr_text st = []).
Proof.
  split; [reflexivity|]. eexists. split; [reflexivity|].
  refine (label_is_what_the_loop_remembers ∅
    [hear lf_lyrics (playing (py "Artist1") (py "Song1") 1000000) 3000000]
    _ (init 1920 640) [LyricChanged SEARCHING; LyricChanged (py "b")] []
    1920 200 _ _ _ _); [reflexivity|reflexivity|discriminate|reflexivity].
Defined.
